(** * Gradient-descent logistic regression (src/logistic_regression.py)

    A shallow embedding of [sigmoid_function], [cost_function],
    [logistic_reg] and [predict_prob], together with the fragment of numpy
    they call ([np.zeros], [np.dot], [.T], [.size], [.mean()], elementwise
    arithmetic with broadcasting of one-dimensional arrays).

    The scalar arithmetic is an interface ([Scalar]) with two instances:
    IEEE binary64 (Rocq's primitive floats, the arithmetic numpy runs; the
    library functions exp and log are parameters of the instance) and the
    real numbers (the exact arithmetic the formulas are written for).
    Whatever is proved inside the generic sections holds for both. *)

From Stdlib Require Import Ascii String.
From Stdlib Require DecimalString DecimalNat DecimalZ.
From Stdlib Require Import ZArith List Bool Lia.
From Stdlib Require Import Reals Lra.
From Stdlib Require Import Floats.
Import ListNotations.

Set Implicit Arguments.

(** ** Scalars: what numpy does on one float64 *)

Class Scalar (T : Type) : Type := {
  of_int : Z -> T;          (* int -> float64 conversion (1, y.size, int labels) *)
  sadd : T -> T -> T;
  ssub : T -> T -> T;
  smul : T -> T -> T;
  sdiv : T -> T -> T;
  sneg : T -> T;
  sexp : T -> T;            (* np.exp *)
  slog : T -> T             (* np.log *)
}.

Definition zero {T} `{Scalar T} : T := of_int 0.
Definition one {T} `{Scalar T} : T := of_int 1.

(** ** Results: numpy raises ValueError on a shape mismatch *)

Inductive result (A : Type) : Type :=
| Ok (a : A)
| ValueError.
Arguments ValueError {A}.

Definition bind {A B} (r : result A) (k : A -> result B) : result B :=
  match r with
  | Ok a => k a
  | ValueError => ValueError
  end.

Declare Scope np_scope.
Delimit Scope np_scope with np.
Notation "x <- e ;; k" := (bind e (fun x => k))
  (at level 61, e at next level, right associativity) : np_scope.
Open Scope np_scope.

Definition result_map {A B} (f : A -> B) (r : result A) : result B :=
  x <- r ;; Ok (f x).

(** ** The numpy fragment *)

Section Numpy.
Context {T : Type} {ops : Scalar T}.

(** A two-dimensional array: [shape1] is [X.shape[1]], [rows] its contents
    row by row; [X.shape[0]] is the number of rows.  numpy arrays are
    rectangular: [rectangular X]. *)
Record ndarray2 : Type := { shape1 : nat; rows : list (list T) }.

Definition shape0 (X : ndarray2) : nat := length (rows X).

Definition rectangular (X : ndarray2) : Prop :=
  Forall (fun r => length r = shape1 X) (rows X).

(** [np.zeros(n)] *)
Definition zeros (n : nat) : list T := repeat zero n.

(** [a.size] of a one-dimensional array, as the float it is converted to
    when an array is divided by it. *)
Definition size {A} (a : list A) : T := of_int (Z.of_nat (length a)).

(** Inner product of two rows, accumulated left to right from 0. *)
Definition inner (a b : list T) : T :=
  fold_left (fun acc p => sadd acc (smul (fst p) (snd p))) (combine a b) zero.

(** [np.dot(X, v)], X two-dimensional and v one-dimensional. *)
Definition dot (X : ndarray2) (v : list T) : result (list T) :=
  if Nat.eqb (shape1 X) (length v)
  then Ok (map (fun r => inner r v) (rows X))
  else ValueError.

(** [X.T] *)
Definition transpose (X : ndarray2) : ndarray2 :=
  {| shape1 := shape0 X;
     rows := map (fun j => map (fun r => nth j r zero) (rows X))
                 (seq 0 (shape1 X)) |}.

(** Elementwise binary operation on two one-dimensional arrays, with
    numpy's broadcasting: equal lengths, or one of them of length 1. *)
Definition broadcast2 {A B C} (f : A -> B -> C) (a : list A) (b : list B)
  : result (list C) :=
  if Nat.eqb (length a) (length b) then
    Ok (map (fun p => f (fst p) (snd p)) (combine a b))
  else match a, b with
       | _, [y] => Ok (map (fun x => f x y) a)
       | [x], _ => Ok (map (fun y => f x y) b)
       | _, _ => ValueError
       end.

(** [a.mean()] of a one-dimensional array: the sum from 0, over the size. *)
Definition mean (a : list T) : T := sdiv (fold_left sadd a zero) (size a).
End Numpy.

Arguments ndarray2 T : clear implicits.

(** The shape two one-dimensional arrays of these lengths broadcast to. *)
Definition bshape (la lb : nat) : option nat :=
  if Nat.eqb la lb then Some la
  else if Nat.eqb lb 1 then Some la
  else if Nat.eqb la 1 then Some lb
  else None.

(** ** The program *)

Section Program.
Context {T : Type} {ops : Scalar T}.

(** [sigmoid_function(z)]: [1/(1+np.exp(-z))], on one entry and on an
    array. *)
Definition sigmoid1 (z : T) : T := sdiv one (sadd one (sexp (sneg z))).
Definition sigmoid_function (z : list T) : list T := map sigmoid1 z.

(** [cost_function(h,y)]:
    [(-y*np.log(h)-(1-y)*np.log(1-h)).mean()], the labels an int array. *)
Definition cost_function (h : list T) (y : list Z) : result T :=
  a <- broadcast2 (fun yi l => smul (of_int yi) l)
         (map Z.opp y) (map slog h) ;;
  b <- broadcast2 (fun yi l => smul (of_int yi) l)
         (map (fun yi => (1 - yi)%Z) y) (map (fun hi => slog (ssub one hi)) h) ;;
  c <- broadcast2 ssub a b ;;
  Ok (mean c).

(** What the program prints. *)
Inductive line : Type :=
| PrintJ (e : T)              (* print('J=',e) *)
| PrintMax.                   (* print("Maximum iterations exceeded!") *)

(** The variables of [logistic_reg] that live across iterations, and the
    standard output written so far. *)
Record state : Type := {
  converged : bool;
  iterations : Z;
  theta : list T;
  J : option T;               (* None before the first assignment *)
  stdout : list line
}.

(** How many loss values a transcript holds. *)
Fixpoint count_J (out : list line) : nat :=
  match out with
  | [] => 0
  | PrintJ _ :: out' => S (count_J out')
  | PrintMax :: out' => count_J out'
  end.

(** What the exit test and the result depend on. *)
Definition control (s : state) : bool * Z * list T :=
  (converged s, iterations s, theta s).

Section Call.
Variable alpha : T.
Variable X : ndarray2 T.
Variable y : list Z.
Variable max_iterations : Z.

(** Lines 36-40. *)
Definition init : state :=
  {| converged := false; iterations := 0;
     theta := zeros (shape1 X); J := None; stdout := [] |}.

(** Lines 42-45: the new value of [theta]. *)
Definition update (th : list T) : result (list T) :=
  z <- dot X th ;;
  let h := sigmoid_function z in
  d <- broadcast2 (fun hi yi => ssub hi (of_int yi)) h y ;;
  g <- dot (transpose X) d ;;
  let gradient := map (fun gi => sdiv gi (size y)) g in
  broadcast2 ssub th (map (smul alpha) gradient).

(** Lines 47-49: the loss at the new [theta]. *)
Definition loss (th : list T) : result T :=
  z <- dot X th ;;
  let h := sigmoid_function z in
  cost_function h y.

(** Lines 53-58: the counter and the exit test. *)
Definition count (s : state) : state :=
  let n := (iterations s + 1)%Z in
  if Z.eqb n max_iterations
  then {| converged := true; iterations := n; theta := theta s;
          J := J s; stdout := stdout s ++ [PrintMax] |}
  else {| converged := converged s; iterations := n; theta := theta s;
          J := J s; stdout := stdout s |}.

(** One pass through the body of the loop, lines 42-58. *)
Definition body (s : state) : result state :=
  th <- update (theta s) ;;
  e <- loss th ;;
  Ok (count {| converged := converged s; iterations := iterations s;
               theta := th; J := Some e;
               stdout := stdout s ++ [PrintJ e] |}).

(** [while not converged: body], with fuel: [None] is a loop that has
    not finished within [fuel] tests of its condition. *)
Fixpoint while (fuel : nat) (s : state) : option (result state) :=
  match fuel with
  | O => None
  | S fuel' =>
      if converged s then Some (Ok s)
      else match body s with
           | Ok s' => while fuel' s'
           | ValueError => Some ValueError
           end
  end.

(** The whole call: the final state, and what is returned (line 60). *)
Definition run (fuel : nat) : option (result state) := while fuel init.

Definition logistic_reg (fuel : nat) : option (result (list T)) :=
  option_map (result_map theta) (run fuel).




(** The body with lines 47-51 removed (no recomputation of h, no loss,
    nothing printed per iteration), and the loop over it. *)
Definition body_noloss (s : state) : result state :=
  th <- update (theta s) ;;
  Ok (count {| converged := converged s; iterations := iterations s;
               theta := th; J := J s; stdout := stdout s |}).

Fixpoint while_noloss (fuel : nat) (s : state) : option (result state) :=
  match fuel with
  | O => None
  | S fuel' =>
      if converged s then Some (Ok s)
      else match body_noloss s with
           | Ok s' => while_noloss fuel' s'
           | ValueError => Some ValueError
           end
  end.

Definition logistic_reg_noloss (fuel : nat) : option (result (list T)) :=
  option_map (result_map theta) (while_noloss fuel init).
End Call.
End Program.

(** ** Iterating the body

    What [k] passes of the loop compute, read off the program above. *)

Section Iterates.
Context {T : Type} {ops : Scalar T}.
Variable alpha : T.
Variable X : ndarray2 T.
Variable y : list Z.
Variable max_iterations : Z.

(** [k] updates in a row, and [k] passes through the body in a row. *)
Fixpoint updates (k : nat) (th : list T) : result (list T) :=
  match k with
  | O => Ok th
  | S k' => th' <- update alpha X y th ;; updates k' th'
  end.

Fixpoint passes (k : nat) (s : state) : result state :=
  match k with
  | O => Ok s
  | S k' => s' <- body alpha X y max_iterations s ;; passes k' s'
  end.

End Iterates.

(** ** The iteration in the words of the specification

    Section 4.1, steps 1-4, entry by entry: [z = X . weights],
    [h = 1 / (1 + exp(-z))], [gradient = X^T . (h - y) / n_samples],
    [weights - learning_rate * gradient].  Sums run over the indices in
    increasing order. *)

Module Spec.
Section Spec.
Context {T : Type} {ops : Scalar T}.

Fixpoint sum_upto (n : nat) (f : nat -> T) : T :=
  match n with
  | O => zero
  | S k => sadd (sum_upto k f) (f k)
  end.

Definition n_samples (X : ndarray2 T) : nat := length (rows X).
Definition n_features (X : ndarray2 T) : nat := shape1 X.

Definition entry (X : ndarray2 T) (i j : nat) : T :=
  nth j (nth i (rows X) []) zero.

Definition z (X : ndarray2 T) (w : list T) (i : nat) : T :=
  sum_upto (n_features X) (fun j => smul (entry X i j) (nth j w zero)).

Definition h (X : ndarray2 T) (w : list T) (i : nat) : T :=
  sdiv one (sadd one (sexp (sneg (z X w i)))).

Definition gradient (X : ndarray2 T) (y : list Z) (w : list T) (j : nat) : T :=
  sdiv (sum_upto (n_samples X)
          (fun i => smul (entry X i j) (ssub (h X w i) (of_int (nth i y 0%Z)))))
       (of_int (Z.of_nat (n_samples X))).

Definition new_weights (alpha : T) (X : ndarray2 T) (y : list Z) (w : list T)
  : list T :=
  map (fun j => ssub (nth j w zero) (smul alpha (gradient X y w j)))
      (seq 0 (n_features X)).
(** The mean cross-entropy loss, [-mean(y*log(h) + (1-y)*log(1-h))], with
    the signs where the program has them. *)
Definition cross_entropy (X : ndarray2 T) (y : list Z) (w : list T) : T :=
  sdiv (sum_upto (n_samples X)
          (fun i => ssub (smul (of_int (- nth i y 0%Z)) (slog (h X w i)))
                         (smul (of_int (1 - nth i y 0%Z))
                               (slog (ssub one (h X w i))))))
       (of_int (Z.of_nat (n_samples X))).
End Spec.
End Spec.

(** ** Prediction (the nested function of the main block)

    [predict_prob] reads the module-level [theta]; the module's variables are
    threaded through the call so that what it does to them can be stated. *)

Section Predict.
Context {T : Type} {ops : Scalar T}.

Record globals : Type := { g_theta : list T }.

Definition predict_prob (X : ndarray2 T) (g : globals)
  : result (list T) * globals :=
  (z <- dot X (g_theta g) ;; Ok (sigmoid_function z), g).

(** Calling it on one matrix after the other. *)
Fixpoint predict_all (Xs : list (ndarray2 T)) (g : globals)
  : list (result (list T)) * globals :=
  match Xs with
  | [] => ([], g)
  | X :: Xs' =>
      let (r, g1) := predict_prob X g in
      let (rs, g2) := predict_all Xs' g1 in
      (r :: rs, g2)
  end.
End Predict.

Arguments globals T : clear implicits.

(** ** The two arithmetics *)

(** Exact real arithmetic. *)
#[export] Instance real_arith : Scalar R := {|
  of_int := IZR;
  sadd := Rplus; ssub := Rminus; smul := Rmult; sdiv := Rdiv; sneg := Ropp;
  sexp := Rtrigo_def.exp; slog := Rpower.ln
|}.

(** int64 -> float64, exact below 2^53 in absolute value. *)
Definition float_of_int (z : Z) : float :=
  match z with
  | Z0 => 0%float
  | Zpos _ => PrimFloat.of_uint63 (Uint63.of_Z z)
  | Zneg p => PrimFloat.opp (PrimFloat.of_uint63 (Uint63.of_Z (Zpos p)))
  end.

(** IEEE binary64 arithmetic; [fexp] and [flog] are the platform's exp and
    log on doubles. *)
Definition binary64 (fexp flog : float -> float) : Scalar float := {|
  of_int := float_of_int;
  sadd := PrimFloat.add; ssub := PrimFloat.sub; smul := PrimFloat.mul;
  sdiv := PrimFloat.div; sneg := PrimFloat.opp;
  sexp := fexp; slog := flog
|}.

(** What C99 Annex F (F.9.3.1, F.9.3.7) fixes of exp and log at the special
    values. *)
Record annex_f (fexp flog : float -> float) : Prop := {
  exp_pos_zero : fexp 0%float = 1%float;
  exp_neg_zero : fexp neg_zero = 1%float;
  exp_neg_infinity : fexp neg_infinity = 0%float;
  log_one : flog 1%float = 0%float;
  log_pos_zero : flog 0%float = neg_infinity
}.

(** The least such pair: the special values, and NaN everywhere else. *)
Definition exp_special (x : float) : float :=
  match PrimFloat.classify x with
  | PZero | NZero => 1%float
  | NInf => 0%float
  | PInf => infinity
  | _ => nan
  end.

Definition log_special (x : float) : float :=
  match PrimFloat.classify x with
  | PZero | NZero => neg_infinity
  | PInf => infinity
  | _ => if PrimFloat.eqb x 1%float then 0%float else nan
  end.

(** ** Exact arithmetic: the loss as a function of the scores *)

(** [ln(1 + e^t)], and its derivative. *)
Definition softplus (t : R) : R := ln (1 + Rtrigo_def.exp t).
Definition logistic (t : R) : R := Rtrigo_def.exp t / (1 + Rtrigo_def.exp t).

(** The cross-entropy of one sample, as a function of its score. *)
Definition xent (z : R) (y : Z) : R :=
  (IZR (- y) * ln (1 / (1 + Rtrigo_def.exp (- z)))
   - IZR (1 - y) * ln (1 - 1 / (1 + Rtrigo_def.exp (- z))))%R.

(** The sum of the squares of the entries of X, and a learning rate that is
    small enough for X. *)
Definition frobenius2 (X : ndarray2 R) : R :=
  Spec.sum_upto (shape0 X)
    (fun i => Spec.sum_upto (shape1 X)
                (fun j => (Spec.entry X i j * Spec.entry X i j)%R)).

Definition learning_rate_bound (X : ndarray2 R) : R :=
  (1 / (1 + frobenius2 X))%R.

(** Labels in {0,1}. *)
Definition binary (y : list Z) : Prop :=
  Forall (fun v => v = 0%Z \/ v = 1%Z) y.

(** ** Inputs used in the examples below *)

(** The scenario of the specification: the AND of two features. *)
Definition X_and : ndarray2 R :=
  {| shape1 := 2; rows := [[0; 0]; [0; 1]; [1; 0]; [1; 1]]%R |}.
Definition y_and : list Z := [0; 0; 0; 1]%Z.

(** One sample with one large feature (the double nearest 1e200), label 1,
    and the learning rate 0.1 of the main block (the double nearest 0.1). *)
Definition X_big : ndarray2 float :=
  {| shape1 := 1; rows := [[0x1.4e718d7d7625ap+664%float]] |}.
Definition y_one : list Z := [1%Z].
Definition alpha_main : float := 0x1.999999999999ap-4%float.

(** Four samples with the feature 1e308 (the double nearest to it), all of
    label 1. *)
Definition X_huge : ndarray2 float :=
  {| shape1 := 1;
     rows := [[0x1.1ccf385ebc8a0p+1023%float]; [0x1.1ccf385ebc8a0p+1023%float];
              [0x1.1ccf385ebc8a0p+1023%float]; [0x1.1ccf385ebc8a0p+1023%float]] |}.
Definition y_ones : list Z := [1; 1; 1; 1]%Z.

(** ** More of the program *)

Section More.
Context {T : Type} {ops : Scalar T}.

(** The losses printed by [k] passes from the weights [th], in order. *)
Fixpoint losses (alpha : T) (X : ndarray2 T) (y : list Z) (k : nat)
    (th : list T) : result (list T) :=
  match k with
  | O => Ok []
  | S k' =>
      th' <- update alpha X y th ;;
      e <- loss X y th' ;;
      es <- losses alpha X y k' th' ;;
      Ok (e :: es)
  end.

(** The main block, lines 74-78: [X = iris.data[:, :2]],
    [y = (iris.target != 0) * 1], and the call with
    [max_iterations=70000]; the dataset and the learning rate are
    arguments. *)
Definition first_two_columns (D : ndarray2 T) : ndarray2 T :=
  {| shape1 := Nat.min 2 (shape1 D); rows := map (firstn 2) (rows D) |}.

Definition nonzero_labels (target : list Z) : list Z :=
  map (fun t => (Z.b2z (negb (Z.eqb t 0)) * 1)%Z) target.

Definition main_train (alpha : T) (D : ndarray2 T) (target : list Z)
    (fuel : nat) : option (result (list T)) :=
  logistic_reg alpha (first_two_columns D) (nonzero_labels target) 70000 fuel.
End More.

(** * The benchmark script (docs/samples/Microsoft.ML.Samples.OneDal/run_bench.py)

    Text is ASCII: a character is a byte of [string].  What the script gets
    from numpy, pandas, scikit-learn and the operating system is an
    interface ([Externals]); every call into it can raise. *)

Module Bench.

(** ** Text *)

(** [s.split(' ')] *)
Fixpoint split_space (s : string) : list string :=
  match s with
  | EmptyString => [EmptyString]
  | String c s' =>
      if Ascii.eqb c " " then EmptyString :: split_space s'
      else match split_space s' with
           | [] => [String c EmptyString]
           | w :: ws => String c w :: ws
           end
  end.

(** [s[:-1]] *)
Fixpoint drop_last (s : string) : string :=
  match s with
  | EmptyString => EmptyString
  | String c EmptyString => EmptyString
  | String c s' => String c (drop_last s')
  end.

(** No character of [s] is a space. *)
Fixpoint spaceless (s : string) : bool :=
  match s with
  | EmptyString => true
  | String c s' => negb (Ascii.eqb c " ") && spaceless s'
  end.

(** [str(n)] of an int, as an f-string writes it. *)
Definition str_int (z : Z) : string :=
  DecimalString.NilEmpty.string_of_int (Z.to_int z).

Definition str_nat (n : nat) : string :=
  DecimalString.NilEmpty.string_of_uint (Nat.to_uint n).

(** [c.upper()] and [c.lower()] of one ASCII character, and
    [s.capitalize()]. *)
Definition upper (c : ascii) : ascii :=
  let n := nat_of_ascii c in
  if (97 <=? n) && (n <=? 122) then ascii_of_nat (n - 32) else c.

Definition lower (c : ascii) : ascii :=
  let n := nat_of_ascii c in
  if (65 <=? n) && (n <=? 90) then ascii_of_nat (n + 32) else c.

Fixpoint lower_all (s : string) : string :=
  match s with
  | EmptyString => EmptyString
  | String c s' => String (lower c) (lower_all s')
  end.

Definition capitalize (s : string) : string :=
  match s with
  | EmptyString => EmptyString
  | String c s' => String (upper c) (lower_all s')
  end.

(** ** Exceptions, and a call that may raise *)

Inductive exn (E : Type) : Type :=
| UnboundLocalError           (* a local read before any assignment *)
| AttributeError              (* an attribute of None *)
| ListValueError              (* list.remove(x): x not in list *)
| LibraryError (e : E).       (* whatever a library call raised *)
Arguments UnboundLocalError {E}.
Arguments AttributeError {E}.
Arguments ListValueError {E}.

Inductive outcome (E A : Type) : Type :=
| Return (a : A)
| Raise (e : exn E).
Arguments Return {E A} a.
Arguments Raise {E A} e.

(** ** Dictionaries *)

(** What the script keeps in a dict: text, ints, and lists of these. *)
#[warnings="-register-all"]
Inductive cell : Type :=
| CStr (s : string)
| CInt (z : Z)
| CList (items : list cell).

(** A dict with str keys: the items in insertion order, each key once. *)
Definition dict : Type := list (string * cell).

(** [d[k] = v]: a key that is there keeps its place, a new one goes last. *)
Fixpoint setitem (d : dict) (k : string) (v : cell) : dict :=
  match d with
  | [] => [(k, v)]
  | (k', v') :: d' =>
      if String.eqb k' k then (k', v) :: d'
      else (k', v') :: setitem d' k v
  end.

(** A dict display [{k: v, ...}] or comprehension [{k: v for ...}]: the
    items are entered from left to right. *)
Definition dict_of (items : list (string * cell)) : dict :=
  fold_left (fun d kv => setitem d (fst kv) (snd kv)) items [].

(** [list(d.keys())] *)
Definition keys (d : dict) : list string := map fst d.

(** [v.format(name)] for a value ['{} ' + el] whose [el] holds no brace,
    as all values of [metrics_map_template] are (lines 53-57): the one
    field takes [name].  The script formats nothing else; a cell of
    another form is left as it is. *)
Definition format (v : cell) (name : string) : cell :=
  match v with
  | CStr (String "{" (String "}" rest)) => CStr (name ++ rest)
  | other => other
  end.

(** ** Constants of the script *)

Definition RANDOM_STATE : Z := 42.
Definition train_filename : string := "synth_data_train.csv".
Definition test_filename : string := "synth_data_test.csv".

(** ** What the script calls *)

Class Externals : Type := {
  array : Type;                 (* numpy arrays *)
  frame : Type;                 (* pandas DataFrames *)
  outside : Type;               (* files and processes *)
  library_error : Type;
  (* make_classification with data_params unpacked and class_sep=0.7 *)
  make_classification : dict -> outcome library_error (array * array);
  (* make_regression with data_params unpacked and noise=0.33 *)
  make_regression : dict -> outcome library_error (array * array);
  (* np.concatenate([x, y.reshape(-1, 1)], axis=1) *)
  concatenate_xy : array -> array -> outcome library_error array;
  (* train_test_split(data, test_size=0.5, random_state=RANDOM_STATE) *)
  train_test_split : array -> outcome library_error (array * array);
  (* data.shape[1] *)
  array_shape1 : array -> outcome library_error nat;
  (* pd.DataFrame(data, columns=...) *)
  DataFrame : array -> list string -> outcome library_error frame;
  (* data[label] = data[label].astype(int) *)
  astype_int : frame -> string -> outcome library_error frame;
  (* data.to_csv(filename, index=False) *)
  to_csv : frame -> string -> outside -> outcome library_error unit * outside;
  (* pd.DataFrame(case_dict) *)
  DataFrame_of_dict : dict -> outcome library_error frame;
  (* pd.read_csv(io.StringIO(text)) *)
  read_csv : string -> outcome library_error frame;
  (* a.merge(b) *)
  merge : frame -> frame -> outcome library_error frame;
  (* a.rename(columns=m) *)
  rename : frame -> dict -> outcome library_error frame;
  (* pd.concat([a, b], axis=0) *)
  concat_rows : frame -> frame -> outcome library_error frame;
  (* list(a.columns) *)
  columns : frame -> list string;
  (* a.groupby(keys)[cols].mean().reset_index() *)
  groupby_mean :
    frame -> list string -> list string -> outcome library_error frame;
  (* subprocess.run(argv, stdout=PIPE, stderr=PIPE, encoding='utf-8',
     env=env): res.stdout and res.stderr *)
  subprocess_run :
    list string -> dict -> outside ->
    outcome library_error (string * string) * outside
}.

Section Script.
Context {ext : Externals}.

(** ** State: the dict objects, the outside, and what was done *)

Inductive event : Type :=
| Spawned (argv : list string) (env : dict)   (* subprocess.run was called *)
| Wrote (filename : string)                   (* to_csv was called *)
| Printed (lines : list string).              (* print was called *)

(** [heap] holds [os.environ], as the object 0, and after it every dict
    the script makes, in the order they are made: the displays and
    comprehensions of lines 28, 48, 57, 77 and 78 and the copies of line
    61.  A dict variable is an index into it. *)
Record state : Type := {
  heap : list dict;
  world : outside;
  trace : list event            (* newest first *)
}.

Definition environ_ref : nat := 0.

Definition empty_dict : dict := [].

Definition M (A : Type) : Type := state -> outcome library_error A * state.

Definition ret {A} (a : A) : M A := fun s => (Return a, s).

Definition bind {A B} (m : M A) (k : A -> M B) : M B :=
  fun s => match m s with
           | (Return a, s') => k a s'
           | (Raise e, s') => (Raise e, s')
           end.

Definition raise {A} (e : exn library_error) : M A := fun s => (Raise e, s).

(** A library call with no effect on the state. *)
Definition call {A} (r : outcome library_error A) : M A := fun s => (r, s).

Definition emit (e : event) : M unit :=
  fun s => (Return tt,
            {| heap := heap s; world := world s; trace := e :: trace s |}).

(** A display or comprehension with these items: a new object. *)
Definition dict_new (items : list (string * cell)) : M nat :=
  fun s => (Return (length (heap s)),
            {| heap := heap s ++ [dict_of items];
               world := world s; trace := trace s |}).

(** The contents of the object [d] now. *)
Definition dict_read (d : nat) : M dict :=
  fun s => (Return (nth d (heap s) empty_dict), s).

(** [d.copy()]: a new object with the contents of [d]. *)
Definition dict_copy (d : nat) : M nat :=
  fun s => (Return (length (heap s)),
            {| heap := heap s ++ [nth d (heap s) empty_dict];
               world := world s; trace := trace s |}).

Fixpoint update_nth (n : nat) (f : dict -> dict) (l : list dict) : list dict :=
  match l, n with
  | [], _ => []
  | d :: l', O => f d :: l'
  | d :: l', S n' => d :: update_nth n' f l'
  end.

(** [d[k] = v]: the object itself changes. *)
Definition dict_setitem (d : nat) (k : string) (v : cell) : M unit :=
  fun s => (Return tt,
            {| heap := update_nth d (fun o => setitem o k v) (heap s);
               world := world s; trace := trace s |}).
End Script.

Declare Scope bench_scope.
Delimit Scope bench_scope with bench.
Notation "x <~ m ;; k" := (bind m (fun x => k))
  (at level 61, m at next level, right associativity) : bench_scope.
Open Scope bench_scope.
Open Scope string_scope.

Section Functions.
Context {ext : Externals}.

(** ** convert_to_csv (lines 15-18) *)

(** [[f'f{i}' for i in range(ncols - 1)] + ['target']] *)
Definition column_names (ncols : nat) : list string :=
  map (fun i => "f" ++ str_nat i) (seq 0 (ncols - 1)) ++ ["target"].

Definition write_csv (data : frame) (filename : string) : M unit :=
  fun s => let (r, w) := to_csv data filename (world s) in
           (r, {| heap := heap s; world := w;
                  trace := Wrote filename :: trace s |}).

Definition convert_to_csv (data : array) (filename : string) (label : string)
  : M unit :=
  ncols <~ call (array_shape1 data) ;;
  df <~ call (DataFrame data (column_names ncols)) ;;
  df <~ call (astype_int df label) ;;
  write_csv df filename.

(** ** read_output_from_command (lines 21-24) *)

Definition run_process (argv : list string) (env : nat)
  : M (string * string) :=
  fun s => let d := nth env (heap s) empty_dict in
           let (r, w) := subprocess_run argv d (world s) in
           (r, {| heap := heap s; world := w;
                  trace := Spawned argv d :: trace s |}).

Definition read_output_from_command (command : string) (env : nat)
  : M (string * string) :=
  res <~ run_process (split_space command) env ;;
  ret (drop_last (fst res), drop_last (snd res)).

(** ** run_case (lines 27-92) *)

(** Lines 28-33: the items of the display. *)
Definition data_params (n_samples n_features : Z) : list (string * cell) :=
  [("n_samples", CInt (2 * n_samples));
   ("n_features", CInt n_features);
   ("n_informative", CInt (n_features / 2));
   ("random_state", CInt RANDOM_STATE)].

(** Lines 48-50: the items of the display; each value is a list of one
    element. *)
Definition case_dict (task_type : string) (n_samples n_features n_trees
    n_leaves : Z) : list (string * cell) :=
  [("algorithm", CList [CStr ("Random Forest " ++ capitalize task_type)]);
   ("n samples", CList [CInt n_samples]);
   ("n features", CList [CInt n_features]);
   ("n trees", CList [CInt n_trees]);
   ("n leaves", CList [CInt n_leaves])].

(** Lines 52-55: the two names the branch binds, if a branch is taken. *)
Definition metric_pair (task_type : string) : option (string * string) :=
  if String.eqb task_type "binary" then Some ("accuracy", "F1 score")
  else if String.eqb task_type "regression" then Some ("RMSE", "R2 score")
  else None.

(** Line 56. *)
Definition metric_names (m : string * string) : list string :=
  ["all workflow time[ms]";
   "training " ++ fst m; "testing " ++ fst m;
   "training " ++ snd m; "testing " ++ snd m].

(** Line 57: the items of [{el: '{} ' + f'{el}' for el in metrics}]. *)
Definition template_items (metrics : list string) : list (string * cell) :=
  map (fun el => (el, CStr ("{} " ++ el))) metrics.

(** Lines 77 and 78: the items of
    [{k: v.format(name) for k, v in metrics_map_template.items()}]. *)
Definition rename_items (name : string) (template : dict)
  : list (string * cell) :=
  map (fun kv => (fst kv, format (snd kv) name)) template.

(** The f-string of lines 62 and 70. *)
Definition command (task_type : string) (n_trees n_leaves : Z) : string :=
  "dotnet run " ++ train_filename ++ " " ++ test_filename ++ " "
  ++ task_type ++ " RandomForest " ++ str_int n_trees ++ " "
  ++ str_int n_leaves.

(** [l.remove(x)]: the first occurrence goes; ValueError when there is
    none. *)
Fixpoint list_remove (x : string) (l : list string) : option (list string) :=
  match l with
  | [] => None
  | a :: l' =>
      if String.eqb a x then Some l'
      else option_map (cons a) (list_remove x l')
  end.

(** Lines 88-89. *)
Fixpoint remove_each (xs : list string) (l : list string)
  : M (list string) :=
  match xs with
  | [] => ret l
  | x :: xs' =>
      match list_remove x l with
      | Some l' => remove_each xs' l'
      | None => raise ListValueError
      end
  end.

(** Lines 28-58: everything before the loop.  What it leaves to the
    rest is [case_dict] and [metrics_map_template]. *)
Definition prepare (n_samples n_features n_trees n_leaves : Z)
    (task_type : string) : M (nat * nat) :=
  data_params_ref <~ dict_new (data_params n_samples n_features) ;;
  xy <~ (if String.eqb task_type "binary" then
           params <~ dict_read data_params_ref ;;
           r <~ call (make_classification params) ;; ret (Some r)
         else if String.eqb task_type "regression" then
           params <~ dict_read data_params_ref ;;
           r <~ call (make_regression params) ;; ret (Some r)
         else ret None) ;;
  data <~ match xy with
          | Some (x, y) => call (concatenate_xy x y)
          | None => raise UnboundLocalError
          end ;;
  split <~ call (train_test_split data) ;;
  _ <~ convert_to_csv (fst split) train_filename "target" ;;
  _ <~ convert_to_csv (snd split) test_filename "target" ;;
  _ <~ emit (Printed ["n_samples=" ++ str_int n_samples
                      ++ ", n_features=" ++ str_int n_features
                      ++ ", n_trees=" ++ str_int n_trees
                      ++ ", n_leaves=" ++ str_int n_leaves]) ;;
  case_dict_ref <~
    dict_new (case_dict task_type n_samples n_features n_trees n_leaves) ;;
  metrics <~ match metric_pair task_type with
             | Some m => ret (metric_names m)
             | None => raise UnboundLocalError
             end ;;
  template_ref <~ dict_new (template_items metrics) ;;
  ret (case_dict_ref, template_ref).

(** Lines 61-83: one pass of the loop over [range(n_runs)]. *)
Definition one_run (case_dict_ref : nat) (cmd : string) (template_ref : nat)
    (result : option frame) : M (option frame) :=
  env_copy <~ dict_copy environ_ref ;;
  out <~ read_output_from_command cmd env_copy ;;
  _ <~ emit (Printed ["DEFAULT STDOUT:"; fst out;
                      "DEFAULT STDERR:"; snd out]) ;;
  cd <~ dict_read case_dict_ref ;;
  case_frame <~ call (DataFrame_of_dict cd) ;;
  parsed <~ call (read_csv (fst out ++ String "010" "")) ;;
  default_res <~ call (merge case_frame parsed) ;;
  _ <~ dict_setitem env_copy "MLNET_BACKEND" (CStr "ONEDAL") ;;
  out' <~ read_output_from_command cmd env_copy ;;
  _ <~ emit (Printed ["OPTIMIZED STDOUT:"; fst out';
                      "OPTIMIZED STDERR:"; snd out']) ;;
  optimized_res <~ call (read_csv (fst out' ++ String "010" "")) ;;
  template <~ dict_read template_ref ;;
  names_ref <~ dict_new (rename_items "ML.NET" template) ;;
  names <~ dict_read names_ref ;;
  default_res <~ call (rename default_res names) ;;
  template <~ dict_read template_ref ;;
  names_ref <~ dict_new (rename_items "oneDAL" template) ;;
  names <~ dict_read names_ref ;;
  optimized_res <~ call (rename optimized_res names) ;;
  merged <~ call (merge default_res optimized_res) ;;
  match result with
  | None => ret (Some merged)
  | Some r => r' <~ call (concat_rows r merged) ;; ret (Some r')
  end.

Fixpoint runs (n : nat) (case_dict_ref : nat) (cmd : string)
    (template_ref : nat) (result : option frame) : M (option frame) :=
  match n with
  | O => ret result
  | S n' =>
      result' <~ one_run case_dict_ref cmd template_ref result ;;
      runs n' case_dict_ref cmd template_ref result'
  end.

(** Lines 85-92. *)
Definition aggregate (case_dict_ref : nat) (result : option frame)
  : M frame :=
  match result with
  | None => raise AttributeError
  | Some r =>
      cd <~ dict_read case_dict_ref ;;
      let groupby_columns := keys cd in
      metric_columns <~ remove_each groupby_columns (columns r) ;;
      call (groupby_mean r groupby_columns metric_columns)
  end.

Definition run_case (n_samples n_features n_trees n_leaves n_runs : Z)
    (task_type : string) : M frame :=
  refs <~ prepare n_samples n_features n_trees n_leaves task_type ;;
  result <~ runs (Z.to_nat n_runs) (fst refs)
              (command task_type n_trees n_leaves) (snd refs) None ;;
  aggregate (fst refs) result.

(** What [subprocess.run] was called with, oldest first. *)
Definition spawned (s : state) : list (list string * dict) :=
  rev (flat_map (fun e => match e with
                          | Spawned argv d => [(argv, d)]
                          | _ => []
                          end) (trace s)).

(** A computation that runs no process and changes no dict that is there;
    it may make new ones. *)
Definition quiet {A} (m : M A) : Prop :=
  forall s, (exists made, heap (snd (m s)) = (heap s ++ made)%list) /\
            spawned (snd (m s)) = spawned s.

(** The two calls of one pass of the loop: the program with the
    environment as it is, then with MLNET_BACKEND=ONEDAL added. *)
Definition pair_of_runs (cmd : string) (e0 : dict)
  : list (list string * dict) :=
  [(split_space cmd, e0);
   (split_space cmd, setitem e0 "MLNET_BACKEND" (CStr "ONEDAL"))].
End Functions.
End Bench.

(** An outside where every library call succeeds and returns nothing of
    interest; used in the examples. *)
Definition calm : Bench.Externals := {|
  Bench.array := unit; Bench.frame := unit; Bench.outside := unit;
  Bench.library_error := Empty_set;
  Bench.make_classification := fun _ => Bench.Return (tt, tt);
  Bench.make_regression := fun _ => Bench.Return (tt, tt);
  Bench.concatenate_xy := fun _ _ => Bench.Return tt;
  Bench.train_test_split := fun _ => Bench.Return (tt, tt);
  Bench.array_shape1 := fun _ => Bench.Return 3;
  Bench.DataFrame := fun _ _ => Bench.Return tt;
  Bench.astype_int := fun _ _ => Bench.Return tt;
  Bench.to_csv := fun _ _ w => (Bench.Return tt, w);
  Bench.DataFrame_of_dict := fun _ => Bench.Return tt;
  Bench.read_csv := fun _ => Bench.Return tt;
  Bench.merge := fun _ _ => Bench.Return tt;
  Bench.rename := fun _ _ => Bench.Return tt;
  Bench.concat_rows := fun _ _ => Bench.Return tt;
  Bench.columns := fun _ =>
    ["algorithm"; "n samples"; "n features"; "n trees"; "n leaves";
     "ML.NET all workflow time[ms]"]%string;
  Bench.groupby_mean := fun _ _ _ => Bench.Return tt;
  Bench.subprocess_run := fun _ _ w => (Bench.Return (""%string, ""%string), w)
|}.

(** A state in which only [os.environ] exists, empty, and nothing was
    done. *)
Definition fresh : Bench.state (ext := calm) :=
  @Bench.Build_state calm [Bench.empty_dict] tt [].

(** ** Relabelling *)

(** The labels with the two classes exchanged, [1 - y], and a state of the
    loop with its weights negated. *)
Definition flip_labels (y : list Z) : list Z := map (fun v => (1 - v)%Z) y.

Definition negate_weights (s : @state R) : @state R :=
  {| converged := converged s; iterations := iterations s;
     theta := map Ropp (theta s); J := J s; stdout := stdout s |}.

(** * Shapes *)

Lemma bshape_sym la lb : bshape la lb = bshape lb la.
Proof.
  unfold bshape.
  destruct (Nat.eqb_spec la lb), (Nat.eqb_spec lb la),
    (Nat.eqb_spec lb 1), (Nat.eqb_spec la 1); congruence || lia.
Qed.

Lemma bshape_same n : bshape n n = Some n.
Proof. unfold bshape. now rewrite Nat.eqb_refl. Qed.

Lemma length_one A (l : list A) : length l = 1 -> exists x, l = [x].
Proof. destruct l as [|x [|? ?]]; simpl; try discriminate. now exists x. Qed.

Lemma broadcast2_bshape A B C (f : A -> B -> C) a b :
  match bshape (length a) (length b) with
  | Some n => exists c, broadcast2 f a b = Ok c /\ length c = n
  | None => broadcast2 f a b = ValueError
  end.
Proof.
  unfold bshape, broadcast2.
  destruct (Nat.eqb_spec (length a) (length b)) as [E|E].
  - eexists; split; [reflexivity|].
    rewrite length_map, length_combine. lia.
  - destruct (Nat.eqb_spec (length b) 1) as [Eb|Eb].
    + destruct (length_one _ Eb) as [v ->].
      destruct a as [|a0 [|a1 a']];
        (eexists; split; [reflexivity|]; simpl; now rewrite ?length_map).
    + destruct (Nat.eqb_spec (length a) 1) as [Ea|Ea].
      * destruct (length_one _ Ea) as [v ->].
        destruct b as [|b0 [|b1 b']]; simpl in *; try lia;
          (eexists; split; [reflexivity|]; simpl; now rewrite ?length_map).
      * destruct a as [|a0 [|a1 a']], b as [|b0 [|b1 b']];
          simpl in *; try reflexivity; lia.
Qed.

Lemma broadcast2_ok_length A B C (f : A -> B -> C) a b c :
  broadcast2 f a b = Ok c -> bshape (length a) (length b) = Some (length c).
Proof.
  intros H. pose proof (broadcast2_bshape f a b) as S.
  destruct (bshape (length a) (length b)).
  - destruct S as (c' & E & L). congruence.
  - congruence.
Qed.

Lemma broadcast2_of_bshape A B C (f : A -> B -> C) a b n :
  bshape (length a) (length b) = Some n ->
  exists c, broadcast2 f a b = Ok c /\ length c = n.
Proof.
  intros H. pose proof (broadcast2_bshape f a b) as S. now rewrite H in S.
Qed.

Lemma broadcast2_same_length A B C (f : A -> B -> C) a b :
  length a = length b ->
  broadcast2 f a b = Ok (map (fun p => f (fst p) (snd p)) (combine a b)).
Proof. intros E. unfold broadcast2. now rewrite E, Nat.eqb_refl. Qed.

Section Shapes.
Context {T : Type} {ops : Scalar T}.

Lemma dot_ok_iff (X : ndarray2 T) v :
  shape1 X = length v -> dot X v = Ok (map (fun r => inner r v) (rows X)).
Proof. intros E. unfold dot. now rewrite E, Nat.eqb_refl. Qed.

Lemma dot_ok_shape (X : ndarray2 T) v z :
  dot X v = Ok z -> shape1 X = length v /\ length z = shape0 X.
Proof.
  unfold dot. destruct (Nat.eqb_spec (shape1 X) (length v)); [|discriminate].
  intros [= <-]. now rewrite length_map.
Qed.

Lemma length_sigmoid (z : list T) : length (sigmoid_function z) = length z.
Proof. unfold sigmoid_function. apply length_map. Qed.

Lemma shape0_transpose (X : ndarray2 T) : shape0 (transpose X) = shape1 X.
Proof. unfold shape0, transpose; simpl. now rewrite length_map, length_seq. Qed.

Variable alpha : T.
Variable X : ndarray2 T.
Variable y : list Z.

(** A successful update has consumed and produced a vector of
    [X.shape[1]] weights, and [h - y] has the shape of [h]. *)
Lemma update_ok_shape th th' :
  update alpha X y th = Ok th' ->
  length th = shape1 X /\ length th' = shape1 X /\
  bshape (shape0 X) (length y) = Some (shape0 X).
Proof.
  unfold update. intros H.
  destruct (dot X th) as [z|] eqn:Ez; [|discriminate]; simpl in H.
  destruct (dot_ok_shape _ _ Ez) as [E1 Lz].
  destruct (broadcast2 _ (sigmoid_function z) y) as [d|] eqn:Ed;
    [|discriminate]; simpl in H.
  destruct (dot (transpose X) d) as [g|] eqn:Eg; [|discriminate]; simpl in H.
  destruct (dot_ok_shape _ _ Eg) as [E2 Lg]. rewrite shape0_transpose in Lg.
  apply broadcast2_ok_length in Ed.
  rewrite length_sigmoid, Lz in Ed.
  simpl in E2. rewrite <- E2 in Ed.
  apply broadcast2_ok_length in H. rewrite !length_map, Lg, <- E1 in H.
  rewrite bshape_same in H. injection H as H. repeat split; congruence.
Qed.

(** On matching shapes the update succeeds. *)
Lemma update_ok th :
  length y = shape0 X -> length th = shape1 X ->
  exists th', update alpha X y th = Ok th'.
Proof.
  intros Ly Lt. unfold update.
  rewrite dot_ok_iff by congruence. simpl.
  set (h := sigmoid_function _).
  assert (Lh : length h = length y).
  { unfold h. rewrite length_sigmoid, length_map. now rewrite Ly. }
  rewrite (broadcast2_same_length _ h y Lh). simpl.
  set (d := map _ (combine h y)).
  assert (Ld : length d = shape0 X).
  { unfold d. rewrite length_map, length_combine. lia. }
  rewrite dot_ok_iff by (simpl; congruence). simpl.
  rewrite broadcast2_same_length.
  2:{ rewrite !length_map, length_seq. congruence. }
  eexists; reflexivity.
Qed.

(** Where the update succeeded, so does the loss at the new weights: the
    shapes it combines are those the update has already combined. *)
Lemma loss_after_update th th' :
  update alpha X y th = Ok th' -> exists e, loss X y th' = Ok e.
Proof.
  intros H. destruct (update_ok_shape _ H) as (_ & L' & B).
  unfold loss. rewrite dot_ok_iff by congruence. cbn [bind].
  unfold cost_function.
  set (h := sigmoid_function _).
  assert (Lh : length h = shape0 X)
    by (unfold h; now rewrite length_sigmoid, length_map).
  rewrite bshape_sym in B.
  destruct (broadcast2_of_bshape (fun yi l => smul (of_int yi) l)
              (map Z.opp y) (map slog h)) with (n := shape0 X)
    as (a & -> & La); [now rewrite !length_map, Lh|]. cbn [bind].
  destruct (broadcast2_of_bshape (fun yi l => smul (of_int yi) l)
              (map (fun yi => (1 - yi)%Z) y)
              (map (fun hi => slog (ssub one hi)) h)) with (n := shape0 X)
    as (b & -> & Lb); [now rewrite !length_map, Lh|]. cbn [bind].
  rewrite broadcast2_same_length by congruence. cbn [bind]. eexists; reflexivity.
Qed.
End Shapes.

(** * The loop *)

Section Loop.
Context {T : Type} {ops : Scalar T}.
Variable alpha : T.
Variable X : ndarray2 T.
Variable y : list Z.
Variable max_iterations : Z.

Local Abbreviation updates := (updates alpha X y).
Local Abbreviation passes := (passes alpha X y max_iterations).

Lemma count_J_app (out1 out2 : list (@line T)) :
  count_J (out1 ++ out2) = count_J out1 + count_J out2.
Proof.
  induction out1 as [|[e|] out1 IH]; simpl; auto.
Qed.

Lemma body_inv s s' :
  body alpha X y max_iterations s = Ok s' ->
  exists th e,
    update alpha X y (theta s) = Ok th /\ loss X y th = Ok e /\
    theta s' = th /\ J s' = Some e /\
    iterations s' = (iterations s + 1)%Z /\
    converged s' =
      (if Z.eqb (iterations s + 1) max_iterations then true else converged s) /\
    stdout s' =
      stdout s ++ PrintJ e ::
        (if Z.eqb (iterations s + 1) max_iterations then [PrintMax] else []).
Proof.
  unfold body. intros H.
  destruct (update alpha X y (theta s)) as [th|] eqn:U; [|discriminate].
  cbn [bind] in H.
  destruct (loss X y th) as [e|] eqn:E; [|discriminate]. cbn [bind] in H.
  injection H as <-. exists th, e. unfold count; cbn.
  destruct (Z.eqb (iterations s + 1) max_iterations); cbn;
    rewrite <- ?app_assoc; repeat split; trivial.
Qed.

Lemma body_noloss_inv s s' :
  body_noloss alpha X y max_iterations s = Ok s' ->
  exists th,
    update alpha X y (theta s) = Ok th /\ theta s' = th /\
    iterations s' = (iterations s + 1)%Z /\
    converged s' =
      (if Z.eqb (iterations s + 1) max_iterations then true else converged s).
Proof.
  unfold body_noloss. intros H.
  destruct (update alpha X y (theta s)) as [th|] eqn:U; [|discriminate].
  cbn [bind] in H. injection H as <-. exists th. unfold count; cbn.
  destruct (Z.eqb (iterations s + 1) max_iterations); cbn;
    repeat split; trivial.
Qed.

Lemma body_ok s :
  length y = shape0 X -> length (theta s) = shape1 X ->
  exists s', body alpha X y max_iterations s = Ok s'.
Proof.
  intros Ly Lt. destruct (update_ok alpha X y (theta s) Ly Lt) as [th U].
  destruct (loss_after_update _ _ _ _ U) as [e E].
  unfold body. rewrite U. cbn [bind]. rewrite E. cbn [bind].
  eexists; reflexivity.
Qed.

(** The body raises exactly when the update does. *)
Lemma body_raises s :
  body alpha X y max_iterations s = ValueError <->
  update alpha X y (theta s) = ValueError.
Proof.
  unfold body. destruct (update alpha X y (theta s)) as [th|] eqn:U;
    cbn [bind]; [|tauto].
  destruct (loss_after_update _ _ _ _ U) as [e ->]. cbn [bind].
  split; discriminate.
Qed.

Lemma body_length s s' :
  body alpha X y max_iterations s = Ok s' -> length (theta s') = shape1 X.
Proof.
  intros H. destruct (body_inv _ H) as (th & e & U & _ & -> & _).
  now destruct (update_ok_shape _ _ _ _ U) as (_ & L & _).
Qed.

Lemma passes_length k : forall s s',
  passes k s = Ok s' -> length (theta s) = shape1 X ->
  length (theta s') = shape1 X.
Proof.
  induction k as [|k IH]; simpl; intros s s' H L.
  - now injection H as <-.
  - destruct (body alpha X y max_iterations s) as [s1|] eqn:B; [|discriminate].
    cbn [bind] in H. eapply IH; eauto using body_length.
Qed.

Lemma passes_updates k : forall s s',
  passes k s = Ok s' -> updates k (theta s) = Ok (theta s').
Proof.
  induction k as [|k IH]; simpl; intros s s' H.
  - now injection H as <-.
  - destruct (body alpha X y max_iterations s) as [s1|] eqn:B; [|discriminate].
    cbn [bind] in H. destruct (body_inv _ B) as (th & e & U & _ & E & _).
    rewrite U. cbn [bind]. rewrite <- E. now apply IH.
Qed.

Lemma passes_count_J k : forall s s',
  passes k s = Ok s' -> count_J (stdout s') = count_J (stdout s) + k.
Proof.
  induction k as [|k IH]; simpl; intros s s' H.
  - injection H as <-. lia.
  - destruct (body alpha X y max_iterations s) as [s1|] eqn:B; [|discriminate].
    cbn [bind] in H. destruct (body_inv _ B) as (th & e & _ & _ & _ & _ & _ & _ & O).
    rewrite (IH _ _ H), O, count_J_app. simpl.
    destruct (Z.eqb (iterations s + 1) max_iterations); simpl; lia.
Qed.

Lemma passes_iterations k : forall s s',
  passes k s = Ok s' -> iterations s' = (iterations s + Z.of_nat k)%Z.
Proof.
  induction k as [|k IH]; intros s s' H.
  - injection H as <-. simpl. lia.
  - simpl in H.
    destruct (body alpha X y max_iterations s) as [s1|] eqn:B; [|discriminate].
    cbn [bind] in H. destruct (body_inv _ B) as (th & e & _ & _ & _ & _ & I & _).
    rewrite (IH _ _ H), I. lia.
Qed.


(** Counting down to [max_iterations]: from a state [k+1] passes short of
    it, the loop makes exactly [k+1] passes and stops. *)
Lemma while_countdown k : forall s,
  length y = shape0 X -> length (theta s) = shape1 X ->
  converged s = false ->
  (iterations s + Z.of_nat (S k))%Z = max_iterations ->
  exists s',
    passes (S k) s = Ok s' /\
    while alpha X y max_iterations (S (S k)) s = Some (Ok s') /\
    (forall fuel, fuel <= S k ->
       while alpha X y max_iterations fuel s = None) /\
    converged s' = true.
Proof.
  induction k as [|k IH]; intros s Ly Lt C I.
  - destruct (body_ok s Ly Lt) as [s1 B].
    destruct (body_inv _ B) as (th & e & _ & _ & _ & _ & I1 & C1 & _).
    assert (E : Z.eqb (iterations s + 1) max_iterations = true)
      by (apply Z.eqb_eq; lia).
    rewrite E in C1. exists s1. simpl. rewrite B, C, C1. cbn [bind].
    repeat split; trivial.
    intros [|[|fuel]] Hf; simpl; rewrite ?C, ?B; trivial; lia.
  - destruct (body_ok s Ly Lt) as [s1 B].
    destruct (body_inv _ B) as (th & e & _ & _ & _ & _ & I1 & C1 & _).
    assert (E : Z.eqb (iterations s + 1) max_iterations = false)
      by (apply Z.eqb_neq; lia).
    rewrite E, C in C1.
    destruct (IH s1 Ly (body_length _ B) C1) as (s' & P & W & N & C');
      [lia|].
    exists s'. repeat split; trivial.
    + change (passes (S (S k)) s)
        with (s0 <- body alpha X y max_iterations s ;; passes (S k) s0).
      rewrite B. exact P.
    + change (while alpha X y max_iterations (S (S (S k))) s)
        with (if converged s then Some (Ok s)
              else match body alpha X y max_iterations s with
                   | Ok s0 => while alpha X y max_iterations (S (S k)) s0
                   | ValueError => Some ValueError
                   end).
      rewrite C, B. exact W.
    + intros [|fuel] Hf; [reflexivity|]. simpl. rewrite C, B.
      apply N. lia.
Qed.

(** Past [max_iterations] the equality test never succeeds again. *)
Lemma while_overshoot fuel : forall s,
  length y = shape0 X -> length (theta s) = shape1 X ->
  converged s = false -> (max_iterations <= iterations s)%Z ->
  while alpha X y max_iterations fuel s = None.
Proof.
  induction fuel as [|fuel IH]; intros s Ly Lt C I; [reflexivity|].
  simpl. rewrite C. destruct (body_ok s Ly Lt) as [s1 B]. rewrite B.
  destruct (body_inv _ B) as (th & e & _ & _ & _ & _ & I1 & C1 & _).
  assert (E : Z.eqb (iterations s + 1) max_iterations = false)
    by (apply Z.eqb_neq; lia).
  rewrite E, C in C1.
  apply IH; eauto using body_length. lia.
Qed.
(** Past [max_iterations] every pass succeeds and leaves the loop running. *)
Lemma passes_overshoot k : forall s,
  length y = shape0 X -> length (theta s) = shape1 X ->
  converged s = false -> (max_iterations <= iterations s)%Z ->
  exists s', passes k s = Ok s' /\ converged s' = false /\
             iterations s' = (iterations s + Z.of_nat k)%Z.
Proof.
  induction k as [|k IH]; intros s Ly Lt C I.
  - exists s. repeat split; trivial. lia.
  - destruct (body_ok s Ly Lt) as [s1 B].
    destruct (body_inv _ B) as (th & e & _ & _ & _ & _ & I1 & C1 & _).
    assert (E : Z.eqb (iterations s + 1) max_iterations = false)
      by (apply Z.eqb_neq; lia).
    rewrite E, C in C1.
    destruct (IH s1 Ly (body_length _ B) C1) as (s' & P & C' & I'); [lia|].
    exists s'. simpl. rewrite B. cbn [bind]. repeat split; trivial. lia.
Qed.

Lemma while_length fuel : forall s s',
  while alpha X y max_iterations fuel s = Some (Ok s') ->
  length (theta s) = shape1 X -> length (theta s') = shape1 X.
Proof.
  induction fuel as [|fuel IH]; intros s s' H L; [discriminate|].
  simpl in H. destruct (converged s).
  - injection H as <-. exact L.
  - destruct (body alpha X y max_iterations s) as [s1|] eqn:B; [|discriminate].
    eapply IH; eauto using body_length.
Qed.

(** The loop without the loss computes the same weights, pass by pass. *)
Lemma while_noloss_theta fuel : forall s1 s2,
  control s1 = control s2 ->
  option_map (result_map theta) (while alpha X y max_iterations fuel s1) =
  option_map (result_map theta) (while_noloss alpha X y max_iterations fuel s2).
Proof.
  induction fuel as [|fuel IH]; intros s1 s2 E; [reflexivity|].
  unfold control in E. injection E as Ec Ei Et. simpl. rewrite <- Ec.
  destruct (converged s1) eqn:C; [simpl; now rewrite Et|].
  destruct (body_noloss alpha X y max_iterations s2) as [s2'|] eqn:B2.
  - destruct (body_noloss_inv _ B2) as (th & U & Et' & Ei' & Ec').
    rewrite <- Et in U.
    destruct (body alpha X y max_iterations s1) as [s1'|] eqn:B1.
    + destruct (body_inv _ B1) as (th1 & e & U1 & _ & Et1 & _ & Ei1 & Ec1 & _).
      apply IH. unfold control.
      rewrite Ec1, Ec', Ei1, Ei', Et1, Et', <- Ec, <- Ei, ?C. congruence.
    + apply body_raises in B1. congruence.
  - assert (U : update alpha X y (theta s1) = ValueError).
    { unfold body_noloss in B2. rewrite <- Et in B2.
      destruct (update alpha X y (theta s1)); [discriminate|reflexivity]. }
    apply body_raises in U. now rewrite U.
Qed.

(** What was printed and the last loss do not feed back into the loop. *)
Lemma while_control fuel : forall s1 s2,
  control s1 = control s2 ->
  option_map (result_map control) (while alpha X y max_iterations fuel s1) =
  option_map (result_map control) (while alpha X y max_iterations fuel s2).
Proof.
  induction fuel as [|fuel IH]; intros s1 s2 E; [reflexivity|].
  pose proof E as E0.
  unfold control in E. injection E as Ec Ei Et. simpl. rewrite <- Ec.
  destruct (converged s1) eqn:C; [simpl; now rewrite E0|].
  destruct (body alpha X y max_iterations s1) as [s1'|] eqn:B1.
  - destruct (body_inv _ B1) as (th1 & e1 & U1 & _ & Et1 & _ & Ei1 & Ec1 & _).
    destruct (body alpha X y max_iterations s2) as [s2'|] eqn:B2.
    + destruct (body_inv _ B2) as (th2 & e2 & U2 & _ & Et2 & _ & Ei2 & Ec2 & _).
      apply IH. unfold control.
      rewrite Ec1, Ec2, Ei1, Ei2, Et1, Et2, <- Ec, <- Ei, ?C. congruence.
    + apply body_raises in B2. congruence.
  - apply body_raises in B1. rewrite Et in B1. apply body_raises in B1.
    now rewrite B1.
Qed.


End Loop.

(** * The claims about the loop *)

(** C2. For matching shapes and [max_iterations >= 1] the loop terminates
    after exactly [max_iterations] passes: one more test of the condition
    than that finishes the run, no smaller number does; the weights returned
    are those of [max_iterations] updates from zero; and the exit flag set by
    a pass is a function of the counter alone, whatever the arithmetic, the
    data, the loss or the gradient. *)
Theorem logistic_reg_terminates (T : Type) (ops : Scalar T)
    (alpha : T) (X : ndarray2 T) (y : list Z) (max_iterations : Z) :
  length y = shape0 X -> (1 <= max_iterations)%Z ->
  exists s : state,
    run alpha X y max_iterations (S (Z.to_nat max_iterations)) = Some (Ok s) /\
    (forall fuel, fuel <= Z.to_nat max_iterations ->
       run alpha X y max_iterations fuel = None) /\
    logistic_reg alpha X y max_iterations (S (Z.to_nat max_iterations))
      = Some (Ok (theta s)) /\
    updates alpha X y (Z.to_nat max_iterations) (zeros (shape1 X))
      = Ok (theta s) /\
    iterations s = max_iterations /\
    (forall s1 s2, body alpha X y max_iterations s1 = Ok s2 ->
       converged s2 =
         (converged s1 || Z.eqb (iterations s1 + 1) max_iterations)%bool).
Proof.
  intros Ly Hm.
  destruct (Z.to_nat max_iterations) as [|k] eqn:Ek; [lia|].
  destruct (@while_countdown T ops alpha X y max_iterations k (init X))
    as (s & P & W & N & C); trivial.
  - unfold init, zeros; simpl. apply repeat_length.
  - simpl iterations. lia.
  - exists s. split; [exact W|]. split; [exact N|].
    split; [unfold logistic_reg, run; now rewrite W|].
    pose proof P as Pu. apply passes_updates in Pu.
    pose proof P as Pi. apply passes_iterations in Pi.
    split; [exact Pu|].
    split.
    + rewrite Pi. simpl iterations. lia.
    + intros s1 s2 B.
      apply body_inv in B. destruct B as (th & e & _ & _ & _ & _ & _ & C1 & _).
      rewrite C1. destruct (Z.eqb (iterations s1 + 1) max_iterations);
        now rewrite ?orb_true_r, ?orb_false_r.
Qed.

Lemma logistic_reg_terminates_witness :
  exists s : state,
    run 0.1%R X_and y_and 3 4 = Some (Ok s) /\
    run 0.1%R X_and y_and 3 3 = None /\
    iterations s = 3%Z.
Proof.
  destruct (@logistic_reg_terminates R real_arith 0.1%R X_and y_and 3)
    as (s & W & N & _ & _ & I & _).
  - reflexivity.
  - lia.
  - exists s. split; [exact W|]. split; [|exact I].
    apply N. simpl. lia.
Defined.

(** C3. The weight vector starts as [n_features] zeros, has length
    [n_features] after every pass of the loop, and so has the vector that is
    returned; on matching shapes and [max_iterations >= 1] one is returned
    (a single feature included). *)
Theorem weights_have_n_features (T : Type) (ops : Scalar T)
    (alpha : T) (X : ndarray2 T) (y : list Z) (max_iterations : Z) :
  theta (init X) = repeat zero (shape1 X) /\
  length (theta (init X)) = shape1 X /\
  (forall k s, passes alpha X y max_iterations k (init X) = Ok s ->
     length (theta s) = shape1 X) /\
  (forall fuel th, logistic_reg alpha X y max_iterations fuel = Some (Ok th) ->
     length th = shape1 X) /\
  (length y = shape0 X -> (1 <= max_iterations)%Z ->
   exists th,
     logistic_reg alpha X y max_iterations (S (Z.to_nat max_iterations))
       = Some (Ok th) /\ length th = shape1 X).
Proof.
  assert (L0 : length (theta (init X)) = shape1 X)
    by (unfold init, zeros; simpl; apply repeat_length).
  assert (R : forall fuel th,
             logistic_reg alpha X y max_iterations fuel = Some (Ok th) ->
             length th = shape1 X).
  { intros fuel th H. unfold logistic_reg, run in H.
    destruct (while alpha X y max_iterations fuel (init X)) as [[s|]|] eqn:W;
      try discriminate.
    simpl in H. injection H as <-. eapply while_length; eassumption. }
  split; [reflexivity|]. split; [exact L0|].
  split; [intros k s P; eapply passes_length; eassumption|].
  split; [exact R|].
  intros Ly Hm.
  destruct (Z.to_nat max_iterations) as [|k] eqn:Ek; [lia|].
  destruct (@while_countdown T ops alpha X y max_iterations k (init X))
    as (s & _ & W & _); trivial.
  - simpl iterations. lia.
  - exists (theta s).
    assert (E : logistic_reg alpha X y max_iterations (S (S k))
                = Some (Ok (theta s)))
      by (unfold logistic_reg, run; now rewrite W).
    split; [exact E|exact (R _ _ E)].
Qed.



(** C5. With lines 47-51 (the recomputation of h, the loss, what is printed
    per pass) removed, [logistic_reg] gives the same outcome on every input
    and for every length of run: the same weights, the same exception, or no
    result within the same number of tests of the condition. *)
Theorem loss_is_diagnostic (T : Type) (ops : Scalar T)
    (alpha : T) (X : ndarray2 T) (y : list Z) (max_iterations : Z)
    (fuel : nat) :
  logistic_reg alpha X y max_iterations fuel
  = logistic_reg_noloss alpha X y max_iterations fuel.
Proof.
  unfold logistic_reg, logistic_reg_noloss, run.
  apply while_noloss_theta. reflexivity.
Qed.

(** C9. A run with [max_iterations = k >= 1] on matching shapes prints
    exactly [k] loss values; and neither what has been printed nor the last
    loss kept in [J] is read by the loop: two states that agree on the flag,
    the counter and the weights run alike in all three. *)
Theorem one_loss_per_iteration (T : Type) (ops : Scalar T)
    (alpha : T) (X : ndarray2 T) (y : list Z) (k : Z) :
  length y = shape0 X -> (1 <= k)%Z ->
  (exists s : state,
     run alpha X y k (S (Z.to_nat k)) = Some (Ok s) /\
     Z.of_nat (count_J (stdout s)) = k) /\
  (forall fuel s1 s2, control s1 = control s2 ->
     option_map (result_map control) (while alpha X y k fuel s1) =
     option_map (result_map control) (while alpha X y k fuel s2)).
Proof.
  intros Ly Hk. split; [|intros fuel s1 s2; apply while_control].
  destruct (Z.to_nat k) as [|n] eqn:En; [lia|].
  destruct (@while_countdown T ops alpha X y k n (init X))
    as (s & P & W & _); trivial.
  - unfold init, zeros; simpl. apply repeat_length.
  - simpl iterations. lia.
  - exists s. split; [exact W|].
    apply passes_count_J in P. rewrite P. simpl. lia.
Qed.

Lemma one_loss_per_iteration_witness :
  exists s : state,
    run 0.1%R X_and y_and 3 4 = Some (Ok s) /\ count_J (stdout s) = 3.
Proof.
  destruct (@one_loss_per_iteration R real_arith 0.1%R X_and y_and 3)
    as [(s & W & N) _].
  - reflexivity.
  - lia.
  - exists s. split; [exact W|]. lia.
Defined.

(** C10. On matching shapes and [max_iterations <= 0] the loop never
    finishes: the counter is 1 at the first test of
    [iterations == max_iterations] and grows from there, so every pass
    succeeds and leaves [converged] false, and no number of tests of the
    condition ends the run. *)
Theorem logistic_reg_never_returns (T : Type) (ops : Scalar T)
    (alpha : T) (X : ndarray2 T) (y : list Z) (max_iterations : Z) :
  length y = shape0 X -> (max_iterations <= 0)%Z ->
  (forall fuel, run alpha X y max_iterations fuel = None) /\
  (forall fuel, logistic_reg alpha X y max_iterations fuel = None) /\
  (forall k, exists s,
     passes alpha X y max_iterations k (init X) = Ok s /\
     converged s = false /\ iterations s = Z.of_nat k).
Proof.
  intros Ly Hm.
  assert (L0 : length (theta (init X)) = shape1 X)
    by (unfold init, zeros; simpl; apply repeat_length).
  assert (N : forall fuel, run alpha X y max_iterations fuel = None)
    by (intros fuel; apply while_overshoot; trivial).
  split; [exact N|]. split.
  - intros fuel. unfold logistic_reg. now rewrite N.
  - intros k.
    destruct (@passes_overshoot T ops alpha X y max_iterations k (init X))
      as (s & P & C & I); trivial.
    exists s. repeat split; trivial.
Qed.

Lemma logistic_reg_never_returns_witness :
  run 0.1%R X_and y_and 0 1000 = None /\
  run 0.1%R X_and y_and (-5) 1000 = None.
Proof.
  split.
  - apply (@logistic_reg_never_returns R real_arith 0.1%R X_and y_and 0);
      [reflexivity|lia].
  - apply (@logistic_reg_never_returns R real_arith 0.1%R X_and y_and (-5));
      [reflexivity|lia].
Defined.

(** * One iteration against the specification's formulas *)

Section Refinement.
Context {T : Type} {ops : Scalar T}.

Lemma sum_upto_ext n (f g : nat -> T) :
  (forall k, k < n -> f k = g k) -> Spec.sum_upto n f = Spec.sum_upto n g.
Proof.
  induction n as [|n IH]; intros E; simpl; [reflexivity|].
  rewrite IH by (intros; apply E; lia). now rewrite E by lia.
Qed.

(** A left fold of sums of products is the sum over the indices. *)
Lemma fold_products (l : list (T * T)) :
  fold_left (fun acc p => sadd acc (smul (fst p) (snd p))) l zero
  = Spec.sum_upto (length l)
      (fun j => smul (fst (nth j l (zero, zero))) (snd (nth j l (zero, zero)))).
Proof.
  induction l as [|x l IH] using rev_ind; [reflexivity|].
  rewrite fold_left_app, length_app, Nat.add_1_r. simpl.
  rewrite IH, nth_middle. f_equal.
  apply sum_upto_ext. intros k Hk. now rewrite app_nth1.
Qed.

Lemma inner_sum (a b : list T) :
  length a = length b ->
  inner a b
  = Spec.sum_upto (length a) (fun j => smul (nth j a zero) (nth j b zero)).
Proof.
  intros E. unfold inner. rewrite fold_products, length_combine, <- E, Nat.min_id.
  apply sum_upto_ext. intros k Hk. now rewrite combine_nth.
Qed.

(** Pairing a vector with a table of as many entries, index by index. *)
Lemma map_combine_seq A B (F : nat -> A) (G : T -> A -> B) (w : list T) :
  forall start n, length w = n ->
  map (fun p => G (fst p) (snd p)) (combine w (map F (seq start n)))
  = map (fun j => G (nth (j - start) w zero) (F j)) (seq start n).
Proof.
  induction w as [|x w IH]; intros start n L; subst n; [reflexivity|].
  simpl. rewrite Nat.sub_diag. f_equal.
  rewrite IH by reflexivity. apply map_ext_in. intros j Hj.
  apply in_seq in Hj. destruct (j - start) as [|d] eqn:D; [lia|].
  now replace (j - S start) with d by lia.
Qed.

Variable alpha : T.
Variable X : ndarray2 T.
Variable y : list Z.

Lemma row_length i :
  rectangular X -> i < shape0 X -> length (nth i (rows X) []) = shape1 X.
Proof.
  unfold rectangular, shape0. intros R Hi.
  rewrite Forall_forall in R. apply R, nth_In, Hi.
Qed.

(** [np.dot(X, w)] holds the linear scores. *)
Lemma dot_scores w i :
  rectangular X -> length w = shape1 X -> i < shape0 X ->
  nth i (map (fun r => inner r w) (rows X)) zero = Spec.z X w i.
Proof.
  intros R Lw Hi.
  rewrite nth_indep with (d' := inner [] w) by (now rewrite length_map).
  rewrite (map_nth (fun r => inner r w)).
  rewrite inner_sum by (rewrite row_length; auto).
  rewrite row_length by assumption. reflexivity.
Qed.

(** The update of the program is the formula of the specification. *)
Lemma update_new_weights w :
  rectangular X -> length y = shape0 X -> length w = shape1 X ->
  update alpha X y w = Ok (Spec.new_weights alpha X y w).
Proof.
  intros R Ly Lw. unfold update.
  rewrite dot_ok_iff by congruence. cbn [bind].
  set (hv := sigmoid_function _).
  assert (Lh : length hv = length y)
    by (unfold hv; rewrite length_sigmoid, length_map; now rewrite Ly).
  rewrite (broadcast2_same_length _ hv y Lh). cbn [bind].
  set (d := map _ (combine hv y)).
  assert (Ld : length d = shape0 X)
    by (unfold d; rewrite length_map, length_combine; lia).
  rewrite dot_ok_iff by (simpl; congruence). cbn [bind].
  unfold transpose; cbn [rows].
  rewrite broadcast2_same_length
    by (rewrite !length_map, length_seq; congruence).
  f_equal. rewrite !map_map.
  rewrite (map_combine_seq _ ssub w 0 Lw).
  unfold Spec.new_weights, Spec.n_features.
  apply map_ext_in. intros j Hj. apply in_seq in Hj.
  rewrite Nat.sub_0_r. f_equal. f_equal.
  unfold Spec.gradient, size, Spec.n_samples. rewrite Ly. unfold shape0.
  f_equal.
  rewrite inner_sum by (rewrite length_map; exact (eq_sym Ld)).
  rewrite length_map. apply sum_upto_ext. intros i Hi. f_equal.
  - unfold Spec.entry.
    rewrite nth_indep with (d' := nth j [] zero)
      by (now rewrite length_map).
    now rewrite (map_nth (fun r => nth j r zero)).
  - unfold d.
    rewrite nth_indep with (d' := ssub (fst (zero, 0%Z)) (of_int (snd (zero, 0%Z))))
      by (rewrite length_map, length_combine; unfold shape0 in *; lia).
    rewrite (map_nth (fun p => ssub (fst p) (of_int (snd p)))).
    rewrite combine_nth by exact Lh. simpl. f_equal.
    unfold hv, sigmoid_function, Spec.h.
    rewrite nth_indep with (d' := sigmoid1 zero)
      by (now rewrite !length_map).
    rewrite (map_nth sigmoid1). unfold sigmoid1.
    now rewrite dot_scores.
Qed.
End Refinement.

(** C1. One pass of the loop on a rectangular matrix with as many rows as
    labels and as many columns as weights computes exactly the formulas of
    the specification: [z = X . w], [h = 1/(1+exp(-z))],
    [gradient = X^T . (h - y) / n_samples], and the new weights
    [w - learning_rate * gradient].  It holds in either arithmetic, for every
    learning rate and all labels. *)
Theorem iteration_computes_spec (T : Type) (ops : Scalar T)
    (alpha : T) (X : ndarray2 T) (y : list Z) (max_iterations : Z)
    (s : state) :
  rectangular X -> length y = shape0 X -> length (theta s) = shape1 X ->
  update alpha X y (theta s) = Ok (Spec.new_weights alpha X y (theta s)) /\
  exists s' : state,
    body alpha X y max_iterations s = Ok s' /\
    theta s' = Spec.new_weights alpha X y (theta s).
Proof.
  intros R Ly Lt.
  assert (U : update alpha X y (theta s)
              = Ok (Spec.new_weights alpha X y (theta s)))
    by (apply update_new_weights; assumption).
  split; [exact U|].
  destruct (@body_ok T ops alpha X y max_iterations s Ly Lt) as [s' B].
  exists s'. split; [exact B|].
  apply body_inv in B. destruct B as (th & e & U' & _ & E & _).
  congruence.
Qed.

Lemma iteration_computes_spec_witness :
  exists s' : state,
    body 0.1%R X_and y_and 3 (init X_and) = Ok s' /\
    theta s' = Spec.new_weights 0.1%R X_and y_and (zeros 2).
Proof.
  apply (@iteration_computes_spec R real_arith 0.1%R X_and y_and 3
           (init X_and)).
  - repeat constructor.
  - reflexivity.
  - reflexivity.
Defined.

(** * Saturation in binary64 *)

(** Rewriting with a special value of exp or log, then evaluating the
    arithmetic around it. *)
Ltac special H :=
  let E := fresh in pose proof H as E; cbv in E; rewrite !E; clear E.

Ltac libm_step libm :=
  first [ special (exp_neg_zero libm) | special (exp_pos_zero libm)
        | special (exp_neg_infinity libm) | special (log_one libm)
        | special (log_pos_zero libm) ]; cbv.

Ltac libm_eval libm := cbv; repeat libm_step libm; reflexivity.

Lemma annex_f_special : annex_f exp_special log_special.
Proof. constructor; reflexivity. Qed.

(** C6. [cost_function] takes the logarithm of the entries of h and of
    1 - h as they are.  In binary64, with any exp and log that have the
    special values of C99 Annex F, a probability of exactly 1 under label 1
    (or exactly 0 under label 0) gives the loss NaN; the run on the single
    sample 1e200 with label 1 reaches such a probability after its first
    update, prints NaN as the loss of each of its three passes, and still
    makes all three and returns. *)
Theorem loss_not_clamped (fexp flog : float -> float) :
  annex_f fexp flog ->
  (forall (h : float) (y : Z),
     cost_function (ops := binary64 fexp flog) [h] [y]
     = Ok (PrimFloat.div
             (PrimFloat.add 0
                (PrimFloat.sub
                   (PrimFloat.mul (float_of_int (- y)) (flog h))
                   (PrimFloat.mul (float_of_int (1 - y))
                      (flog (PrimFloat.sub 1 h)))))
             1)) /\
  cost_function (ops := binary64 fexp flog) [1%float] [1%Z] = Ok nan /\
  cost_function (ops := binary64 fexp flog) [0%float] [0%Z] = Ok nan /\
  exists th1 : list float,
    update (ops := binary64 fexp flog) alpha_main X_big y_one
      (zeros (ops := binary64 fexp flog) 1) = Ok th1 /\
    (z <- dot (ops := binary64 fexp flog) X_big th1 ;;
     Ok (sigmoid_function (ops := binary64 fexp flog) z)) = Ok [1%float] /\
    loss (ops := binary64 fexp flog) X_big y_one th1 = Ok nan /\
    run (ops := binary64 fexp flog) alpha_main X_big y_one 3 4
      = Some (Ok {| converged := true; iterations := 3; theta := th1;
                    J := Some nan;
                    stdout := [PrintJ nan; PrintJ nan; PrintJ nan;
                               PrintMax] |}).
Proof.
  intros libm.
  split; [intros h y; reflexivity|].
  split; [libm_eval libm|].
  split; [libm_eval libm|].
  exists [0x1.0b8e0acac4eafp+660%float].
  split; [libm_eval libm|].
  split; [libm_eval libm|].
  split; libm_eval libm.
Qed.

Lemma loss_not_clamped_witness :
  run (ops := binary64 exp_special log_special) alpha_main X_big y_one 3 4
  = Some (Ok {| converged := true; iterations := 3;
                theta := [0x1.0b8e0acac4eafp+660%float];
                J := Some nan;
                stdout := [PrintJ nan; PrintJ nan; PrintJ nan; PrintMax] |}).
Proof.
  destruct (@loss_not_clamped exp_special log_special)
    as (_ & _ & _ & th1 & U & _ & _ & W).
  - constructor; reflexivity.
  - vm_compute in U. injection U as <-. exact W.
Defined.

(** * Prediction *)

Section Prediction.
Context {T : Type} {ops : Scalar T}.

Lemma map_nth_seq A B (f : A -> B) (d : A) (l : list A) :
  map f l = map (fun i => f (nth i l d)) (seq 0 (length l)).
Proof.
  induction l as [|x l IH] using rev_ind; [reflexivity|].
  rewrite map_app, length_app, Nat.add_1_r, seq_S, map_app. simpl.
  rewrite nth_middle. f_equal. rewrite IH.
  apply map_ext_in. intros i Hi. apply in_seq in Hi. now rewrite app_nth1 by lia.
Qed.

(** [sigmoid_function(np.dot(X, w))] is the vector of the specification's
    probabilities. *)
Lemma sigmoid_dot (X : ndarray2 T) (w : list T) :
  rectangular X -> shape1 X = length w ->
  (z <- dot X w ;; Ok (sigmoid_function z))
  = Ok (map (Spec.h X w) (seq 0 (shape0 X))).
Proof.
  intros R E. rewrite dot_ok_iff by assumption. cbn [bind]. f_equal.
  unfold sigmoid_function. rewrite map_map.
  rewrite (map_nth_seq _ [] (rows X)). fold (shape0 X).
  apply map_ext_in. intros i Hi. apply in_seq in Hi.
  unfold Spec.h, sigmoid1. do 4 f_equal.
  rewrite <- (dot_scores (X := X) w (i := i)) by (auto; lia).
  rewrite nth_indep with (d' := inner [] w) by (rewrite length_map; apply Hi).
  now rewrite (map_nth (fun r => inner r w)).
Qed.

Lemma predict_prob_globals (X : ndarray2 T) (g : globals T) :
  snd (predict_prob X g) = g.
Proof. reflexivity. Qed.

(** Any number of calls: each returns what a single call returns, and the
    module's [theta] is as it was. *)
Lemma predict_all_single (Xs : list (ndarray2 T)) (g : globals T) :
  predict_all Xs g = (map (fun X => fst (predict_prob X g)) Xs, g).
Proof.
  induction Xs as [|X Xs IH]; [reflexivity|].
  simpl. now rewrite IH.
Qed.
End Prediction.

(** In exact arithmetic the logistic function lies strictly between 0 and 1. *)
Lemma sigmoid1_real_bounds (z : R) : (0 < sigmoid1 z < 1)%R.
Proof.
  unfold sigmoid1, one; simpl.
  pose proof (exp_pos (- z)) as P.
  split.
  - apply Rdiv_lt_0_compat; lra.
  - apply Rmult_lt_reg_r with (1 + Rtrigo_def.exp (- z))%R; [lra|].
    unfold Rdiv. rewrite Rmult_assoc, Rinv_l by lra. lra.
Qed.

(** C7, as stated, fails in binary64.  With any exp that has the special
    values of Annex F, [predict_prob] on the one-row matrix [1e200] with the
    weight 1e200 returns exactly 1.0 (the score overflows to infinity,
    exp(-inf) is 0, and 1/(1+0) is 1): not every output value is strictly
    between 0 and 1 for every matching matrix. *)
Lemma predict_prob_saturates :
  (forall fexp flog : float -> float, annex_f fexp flog ->
     fst (predict_prob (ops := binary64 fexp flog) X_big
            {| g_theta := [0x1.4e718d7d7625ap+664%float] |})
     = Ok [1%float]) /\
  ~ (forall fexp flog : float -> float, annex_f fexp flog ->
     forall (X : ndarray2 float) (g : globals float) (p : list float),
       rectangular X -> shape1 X = length (g_theta g) ->
       fst (predict_prob (ops := binary64 fexp flog) X g) = Ok p ->
       Forall (fun v => PrimFloat.ltb 0 v = true /\ PrimFloat.ltb v 1 = true)
              p).
Proof.
  split.
  - intros fexp flog libm. libm_eval libm.
  - intros H.
    specialize (H exp_special log_special annex_f_special X_big
                  {| g_theta := [0x1.4e718d7d7625ap+664%float] |}
                  [1%float]).
    assert (F : Forall (fun v => PrimFloat.ltb 0 v = true /\
                                 PrimFloat.ltb v 1 = true) [1%float]).
    { apply H.
      - repeat constructor.
      - reflexivity.
      - vm_compute. reflexivity. }
    inversion F as [|v l [_ C] _]. vm_compute in C. discriminate.
Qed.

(** C7, amended.  For every rectangular matrix with as many columns as
    there are weights, [predict_prob] returns exactly the sigmoid of
    [X . weights] and leaves the module's weights as they were, so calls in
    any number return what each returns alone; in exact real arithmetic every
    value returned lies strictly between 0 and 1. *)
Theorem predict_prob_spec :
  (forall (T : Type) (ops : Scalar T) (X : ndarray2 T) (g : globals T),
     rectangular X -> shape1 X = length (g_theta g) ->
     predict_prob X g
     = (Ok (map (Spec.h X (g_theta g)) (seq 0 (shape0 X))), g)) /\
  (forall (T : Type) (ops : Scalar T) (Xs : list (ndarray2 T)) (g : globals T),
     predict_all Xs g = (map (fun X => fst (predict_prob X g)) Xs, g)) /\
  (forall (X : ndarray2 R) (g : globals R) (p : list R),
     fst (predict_prob X g) = Ok p ->
     Forall (fun v => (0 < v < 1)%R) p).
Proof.
  split; [|split].
  - intros T ops X g R E. unfold predict_prob. now rewrite sigmoid_dot.
  - intros T ops Xs g. apply predict_all_single.
  - intros X g p H. unfold predict_prob in H. simpl in H.
    destruct (dot X (g_theta g)) as [z|]; [|discriminate].
    cbn [bind] in H. injection H as <-.
    unfold sigmoid_function. apply Forall_forall. intros v Hv.
    apply in_map_iff in Hv. destruct Hv as (z0 & <- & _).
    apply sigmoid1_real_bounds.
Qed.

(** * The loss against the specification's formula *)

Section LossFormula.
Context {T : Type} {ops : Scalar T}.

Lemma fold_sum (l : list T) :
  fold_left sadd l zero = Spec.sum_upto (length l) (fun i => nth i l zero).
Proof.
  induction l as [|x l IH] using rev_ind; [reflexivity|].
  rewrite fold_left_app, length_app, Nat.add_1_r. simpl.
  rewrite IH, nth_middle. f_equal.
  apply sum_upto_ext. intros k Hk. now rewrite app_nth1.
Qed.

Lemma nth_zip A B C (f : A -> B -> C) a b i da db d :
  length a = length b -> i < length a ->
  nth i (map (fun p => f (fst p) (snd p)) (combine a b)) d
  = f (nth i a da) (nth i b db).
Proof.
  intros E Hi.
  rewrite nth_indep with (d' := (fun p => f (fst p) (snd p)) (da, db))
    by (rewrite length_map, length_combine; lia).
  rewrite (map_nth (fun p => f (fst p) (snd p))).
  now rewrite combine_nth.
Qed.

Lemma nth_map_in A B (f : A -> B) l i d d' :
  i < length l -> nth i (map f l) d = f (nth i l d').
Proof.
  intros Hi. rewrite nth_indep with (d' := f d') by (now rewrite length_map).
  apply map_nth.
Qed.

Lemma sigmoid_scores (X : ndarray2 T) (w : list T) :
  rectangular X -> shape1 X = length w ->
  sigmoid_function (map (fun r => inner r w) (rows X))
  = map (Spec.h X w) (seq 0 (shape0 X)).
Proof.
  intros R E. pose proof (sigmoid_dot w R E) as H.
  rewrite dot_ok_iff in H by assumption. cbn [bind] in H. now injection H.
Qed.

Lemma loss_sum (X : ndarray2 T) (y : list Z) (w : list T) :
  rectangular X -> length y = shape0 X -> length w = shape1 X ->
  loss X y w = Ok (Spec.cross_entropy X y w).
Proof.
  intros R Ly Lw. unfold loss. rewrite dot_ok_iff by congruence. cbn [bind].
  rewrite sigmoid_scores by congruence.
  set (hv := map (Spec.h X w) (seq 0 (shape0 X))).
  assert (Lh : length hv = shape0 X) by (unfold hv; now rewrite length_map, length_seq).
  unfold cost_function.
  rewrite broadcast2_same_length by (rewrite !length_map; congruence). cbn [bind].
  rewrite broadcast2_same_length by (rewrite !length_map; congruence). cbn [bind].
  rewrite broadcast2_same_length
    by (rewrite !length_map, !length_combine, !length_map; lia). cbn [bind].
  f_equal. unfold mean, Spec.cross_entropy, size, Spec.n_samples. fold (shape0 X).
  set (c := map _ (combine _ _)).
  assert (Lc : length c = shape0 X).
  { unfold c. rewrite !length_map, !length_combine, !length_map, !length_combine, !length_map. lia. }
  rewrite fold_sum, Lc. f_equal.
  apply sum_upto_ext. intros i Hi. unfold c.
  rewrite (nth_zip ssub) with (da := zero) (db := zero)
    by (rewrite !length_map, !length_combine, !length_map; lia).
  assert (Hh : forall d, nth i hv d = Spec.h X w i).
  { intros d. unfold hv. rewrite nth_map_in with (d' := 0) by (rewrite length_seq; lia).
    now rewrite seq_nth. }
  f_equal.
  - rewrite (nth_zip (fun yi l => smul (of_int yi) l)) with (da := 0%Z) (db := zero)
      by (rewrite !length_map; lia).
    rewrite nth_map_in with (d' := 0%Z) by lia.
    rewrite nth_map_in with (d' := zero) by lia. now rewrite Hh.
  - rewrite (nth_zip (fun yi l => smul (of_int yi) l)) with (da := 0%Z) (db := zero)
      by (rewrite !length_map; lia).
    rewrite nth_map_in with (d' := 0%Z) by lia.
    rewrite nth_map_in with (d' := zero) by lia. now rewrite Hh.
Qed.
End LossFormula.

(** * Gradient descent in exact arithmetic *)

Open Scope R_scope.

Lemma softplus_derivative t : derivable_pt_lim softplus t (logistic t).
Proof.
  pose proof (exp_pos t) as P.
  assert (H : derivable_pt_lim (comp ln (fct_cte 1 + exp)%F) t
                (/ (1 + Rtrigo_def.exp t) * (0 + Rtrigo_def.exp t))).
  { apply derivable_pt_lim_comp.
    - apply derivable_pt_lim_plus;
        [apply derivable_pt_lim_const | apply derivable_pt_lim_exp].
    - apply derivable_pt_lim_ln. unfold plus_fct, fct_cte. lra. }
  unfold logistic. replace (Rtrigo_def.exp t / (1 + Rtrigo_def.exp t)) with (/ (1 + Rtrigo_def.exp t) * (0 + Rtrigo_def.exp t))
    by (field; lra).
  exact H.
Qed.

Lemma logistic_derivative t :
  derivable_pt_lim logistic t (Rtrigo_def.exp t / (1 + Rtrigo_def.exp t)²).
Proof.
  pose proof (exp_pos t) as P.
  assert (H : derivable_pt_lim (Rtrigo_def.exp / (fct_cte 1 + exp))%F t
                ((Rtrigo_def.exp t * (1 + Rtrigo_def.exp t) - (0 + Rtrigo_def.exp t) * Rtrigo_def.exp t) / (1 + Rtrigo_def.exp t)²)).
  { apply (derivable_pt_lim_div Rtrigo_def.exp (fct_cte 1 + exp)%F).
    - apply derivable_pt_lim_exp.
    - apply derivable_pt_lim_plus;
        [apply derivable_pt_lim_const | apply derivable_pt_lim_exp].
    - unfold plus_fct, fct_cte. lra. }
  replace (Rtrigo_def.exp t / (1 + Rtrigo_def.exp t)²)
    with ((Rtrigo_def.exp t * (1 + Rtrigo_def.exp t) - (0 + Rtrigo_def.exp t) * Rtrigo_def.exp t) / (1 + Rtrigo_def.exp t)²)
    by (unfold Rsqr; field; lra).
  exact H.
Qed.

Lemma logistic_slope t : 0 <= Rtrigo_def.exp t / (1 + Rtrigo_def.exp t)² <= 1 / 4.
Proof.
  pose proof (exp_pos t) as P. unfold Rsqr, Rdiv.
  set (q := (1 + Rtrigo_def.exp t) * (1 + Rtrigo_def.exp t)).
  assert (Q : 0 < q) by (unfold q; nra).
  assert (I : 0 < / q) by (apply Rinv_0_lt_compat; exact Q).
  assert (E : q * / q = 1) by (apply Rinv_r; lra).
  assert (F : 0 <= q - 4 * Rtrigo_def.exp t).
  { pose proof (Rle_0_sqr (1 - Rtrigo_def.exp t)) as S. unfold Rsqr in S. unfold q. nra. }
  split; [nra|].
  pose proof (Rmult_le_pos _ _ F (Rlt_le _ _ I)). nra.
Qed.

(** The logistic function rises, and by at most a quarter of the step. *)
Lemma logistic_step a b :
  a <= b -> 0 <= logistic b - logistic a <= (b - a) / 4.
Proof.
  intros [L| ->]; [|lra].
  destruct (MVT_cor2 logistic (fun t => Rtrigo_def.exp t / (1 + Rtrigo_def.exp t)²) a b L
              (fun c _ => logistic_derivative c)) as (c & E & _).
  pose proof (logistic_slope c). rewrite E. nra.
Qed.

(** Second-order bound on softplus: its second derivative is at most 1/4. *)
Lemma softplus_quadratic z t :
  softplus t <= softplus z + logistic z * (t - z) + (t - z)² / 8.
Proof.
  set (phi := fun u => softplus u - logistic z * u - (u - z)² / 8).
  set (phi' := fun u => logistic u - logistic z - (u - z) / 4).
  assert (D : forall u, derivable_pt_lim phi u (phi' u)).
  { intros u. unfold phi, phi'.
    assert (H : derivable_pt_lim
                  (softplus - mult_real_fct (logistic z) id
                   - mult_real_fct (/ 8) (comp Rsqr (id - fct_cte z)))%F u
                  (logistic u - logistic z * 1
                   - / 8 * (2 * (u - z) * (1 - 0)))).
    { apply derivable_pt_lim_minus; [apply derivable_pt_lim_minus|].
      - apply softplus_derivative.
      - apply derivable_pt_lim_scal, derivable_pt_lim_id.
      - apply derivable_pt_lim_scal, derivable_pt_lim_comp.
        + apply derivable_pt_lim_minus;
            [apply derivable_pt_lim_id | apply derivable_pt_lim_const].
        + apply derivable_pt_lim_Rsqr. }
    replace (logistic u - logistic z - (u - z) / 4)
      with (logistic u - logistic z * 1 - / 8 * (2 * (u - z) * (1 - 0)))
      by field.
    eapply derivable_pt_lim_ext; [|exact H].
    intros v. unfold minus_fct, mult_real_fct, comp, id, fct_cte. field. }
  assert (G : phi t <= phi z).
  { destruct (Rtotal_order z t) as [L|[->|L]]; [|lra|].
    - destruct (MVT_cor2 phi phi' z t L (fun c _ => D c)) as (c & E & Hc).
      assert (S : 0 <= logistic c - logistic z <= (c - z) / 4)
        by (apply logistic_step; lra).
      assert (phi' c <= 0) by (unfold phi'; lra). nra.
    - destruct (MVT_cor2 phi phi' t z L (fun c _ => D c)) as (c & E & Hc).
      assert (S : 0 <= logistic z - logistic c <= (z - c) / 4)
        by (apply logistic_step; lra).
      assert (0 <= phi' c) by (unfold phi'; lra). nra. }
  unfold phi in G. replace ((z - z)²) with 0 in G by (unfold Rsqr; ring). lra.
Qed.

Local Abbreviation Sum := (@Spec.sum_upto R real_arith).

Lemma Sum_S n f : Sum (S n) f = Sum n f + f n.
Proof. reflexivity. Qed.

Lemma Sum_0 f : Sum 0 f = 0.
Proof. reflexivity. Qed.

Lemma Sum_plus n f g : Sum n (fun k => f k + g k) = Sum n f + Sum n g.
Proof.
  induction n as [|n IH]; [rewrite !Sum_0; ring|].
  rewrite !Sum_S, IH. ring.
Qed.

Lemma Sum_scal n c f : Sum n (fun k => c * f k) = c * Sum n f.
Proof.
  induction n as [|n IH]; [rewrite !Sum_0; ring|].
  rewrite !Sum_S, IH. ring.
Qed.

Lemma Sum_le n f g :
  (forall k, (k < n)%nat -> f k <= g k) -> Sum n f <= Sum n g.
Proof.
  induction n as [|n IH]; intros H; [rewrite !Sum_0; lra|].
  rewrite !Sum_S. apply Rplus_le_compat; [apply IH; intros; apply H; lia|].
  apply H; lia.
Qed.

Lemma Sum_nonneg n f : (forall k, (k < n)%nat -> 0 <= f k) -> 0 <= Sum n f.
Proof.
  intros H. replace 0 with (Sum n (fun _ => 0)).
  - now apply Sum_le.
  - induction n as [|n IH]; [reflexivity|]. rewrite Sum_S, IH; [ring|].
    intros; apply H; lia.
Qed.

Lemma Sum_swap n m (f : nat -> nat -> R) :
  Sum n (fun i => Sum m (fun j => f i j)) = Sum m (fun j => Sum n (fun i => f i j)).
Proof.
  induction n as [|n IH].
  - rewrite Sum_0. symmetry. induction m as [|m IHm]; [reflexivity|].
    now rewrite Sum_S, IHm, Sum_0, Rplus_0_l.
  - rewrite Sum_S, IH, <- Sum_plus. apply sum_upto_ext. intros j _.
    now rewrite Sum_S.
Qed.

Lemma sqr_le_nonneg x y : 0 <= x -> y * y <= x * x -> y <= x.
Proof. intros. nra. Qed.

Lemma cauchy_schwarz n (a b : nat -> R) :
  Sum n (fun k => a k * b k) * Sum n (fun k => a k * b k)
  <= Sum n (fun k => a k * a k) * Sum n (fun k => b k * b k).
Proof.
  induction n as [|n IH]; [rewrite !Sum_0; lra|].
  rewrite !Sum_S.
  set (A := Sum n (fun k => a k * b k)) in *.
  set (P := Sum n (fun k => a k * a k)) in *.
  set (Q := Sum n (fun k => b k * b k)) in *.
  assert (HP : 0 <= P) by (apply Sum_nonneg; intros; nra).
  assert (HQ : 0 <= Q) by (apply Sum_nonneg; intros; nra).
  set (u := a n) in *. set (v := b n) in *.
  assert (M : 2 * A * (u * v) <= P * (v * v) + Q * (u * u)).
  { apply sqr_le_nonneg.
    - assert (0 <= P * (v * v)) by (apply Rmult_le_pos; nra).
      assert (0 <= Q * (u * u)) by (apply Rmult_le_pos; nra). lra.
    - assert (E : 0 <= (P * Q - A * A) * ((u * v) * (u * v)))
        by (apply Rmult_le_pos; nra).
      assert (E2 : 0 <= (P * (v * v) - Q * (u * u)) * (P * (v * v) - Q * (u * u)))
        by exact (Rle_0_sqr _).
      replace ((P * (v * v) + Q * (u * u)) * (P * (v * v) + Q * (u * u)))
        with (2 * A * (u * v) * (2 * A * (u * v))
              + (4 * ((P * Q - A * A) * (u * v * (u * v)))
                 + (P * (v * v) - Q * (u * u)) * (P * (v * v) - Q * (u * u))))
        by ring.
      lra. }
  replace ((P + u * u) * (Q + v * v))
    with (P * Q + (P * (v * v) + Q * (u * u)) + u * v * (u * v)) by ring.
  replace ((A + u * v) * (A + u * v))
    with (A * A + 2 * A * (u * v) + u * v * (u * v)) by ring.
  lra.
Qed.

Lemma sigmoid_logistic z : 1 / (1 + Rtrigo_def.exp (- z)) = logistic z.
Proof.
  unfold logistic. pose proof (exp_pos z). rewrite exp_Ropp. field. lra.
Qed.

Lemma softplus_neg z : ln (1 + Rtrigo_def.exp (- z)) = softplus z - z.
Proof.
  unfold softplus. pose proof (exp_pos z) as P. pose proof (exp_pos (- z)) as N.
  replace (1 + Rtrigo_def.exp z) with (Rtrigo_def.exp z * (1 + Rtrigo_def.exp (- z))).
  - rewrite ln_mult by lra. rewrite ln_exp. ring.
  - rewrite exp_Ropp. field. lra.
Qed.

Lemma xent_softplus z y :
  (y = 0 \/ y = 1)%Z -> xent z y = softplus z - IZR y * z.
Proof.
  pose proof (exp_pos (- z)) as N.
  intros [-> | ->]; unfold xent; simpl Z.opp; simpl Z.sub.
  - replace (1 - 1 / (1 + Rtrigo_def.exp (- z))) with (Rtrigo_def.exp (- z) * / (1 + Rtrigo_def.exp (- z)))
      by (field; lra).
    rewrite ln_mult by (try apply Rinv_0_lt_compat; lra).
    rewrite ln_Rinv by lra. rewrite ln_exp, softplus_neg. ring.
  - unfold Rdiv. rewrite Rmult_1_l, ln_Rinv by lra.
    rewrite softplus_neg. ring.
Qed.

Lemma xent_step z delta y :
  (y = 0 \/ y = 1)%Z ->
  xent (z + delta) y
  <= xent z y + (logistic z - IZR y) * delta + delta * delta / 8.
Proof.
  intros B. rewrite !xent_softplus by assumption.
  pose proof (softplus_quadratic z (z + delta)) as Q.
  replace (z + delta - z) with delta in Q by ring. unfold Rsqr in Q. lra.
Qed.

(** The sum behind one step of gradient descent: with [g] the gradient and
    [d] the change of the scores per unit of step, the first-order and
    second-order terms together are not positive once
    [alpha * |X|^2 <= 8 n]. *)
Lemma descent_terms n f (x : nat -> nat -> R) (r g d : nat -> R) (N alpha : R) :
  0 < N ->
  (forall j, (j < f)%nat -> g j * N = Sum n (fun i => x i j * r i)) ->
  (forall i, (i < n)%nat -> d i = Sum f (fun j => x i j * g j)) ->
  0 <= alpha ->
  alpha * Sum n (fun i => Sum f (fun j => x i j * x i j)) <= 8 * N ->
  Sum n (fun i => r i * (- alpha * d i) + (- alpha * d i) * (- alpha * d i) / 8)
  <= 0.
Proof.
  intros HN Hg Hd Ha Hsmall.
  set (G := Sum f (fun j => g j * g j)).
  set (F := Sum n (fun i => Sum f (fun j => x i j * x i j))) in *.
  assert (HG : 0 <= G) by (apply Sum_nonneg; intros; nra).
  assert (First : Sum n (fun i => r i * d i) = N * G).
  { transitivity (Sum n (fun i => Sum f (fun j => x i j * r i * g j))).
    - apply sum_upto_ext. intros i Hi. rewrite (Hd i Hi), <- Sum_scal.
      apply sum_upto_ext. intros j _. simpl. ring.
    - rewrite Sum_swap. unfold G. rewrite <- Sum_scal.
      apply sum_upto_ext. intros j Hj.
      transitivity (g j * Sum n (fun i => x i j * r i)).
      + rewrite <- Sum_scal. apply sum_upto_ext. intros i _. simpl. ring.
      + rewrite <- (Hg j Hj). simpl. ring. }
  assert (Second : Sum n (fun i => d i * d i) <= F * G).
  { unfold F. rewrite (Rmult_comm _ G), <- Sum_scal. apply Sum_le.
    intros i Hi. rewrite (Hd i Hi), (Rmult_comm G). apply cauchy_schwarz. }
  transitivity (- alpha * Sum n (fun i => r i * d i)
                + alpha * alpha / 8 * Sum n (fun i => d i * d i)).
  - rewrite <- !Sum_scal, <- Sum_plus. apply Req_le, sum_upto_ext.
    intros i _. simpl. field.
  - rewrite First.
    assert (alpha * alpha / 8 * Sum n (fun i => d i * d i)
            <= alpha * alpha / 8 * (F * G))
      by (apply Rmult_le_compat_l; [nra|exact Second]).
    assert (0 <= (8 * N - alpha * F) * (alpha * G))
      by (apply Rmult_le_pos; [lra|nra]).
    nra.
Qed.

Lemma frobenius2_nonneg X : 0 <= frobenius2 X.
Proof.
  unfold frobenius2. apply Sum_nonneg. intros i _. apply Sum_nonneg.
  intros j _. apply Rle_0_sqr.
Qed.

Lemma learning_rate_bound_pos X : 0 < learning_rate_bound X.
Proof.
  pose proof (frobenius2_nonneg X). unfold learning_rate_bound.
  apply Rdiv_lt_0_compat; lra.
Qed.

Lemma binary_nth y i : binary y -> (nth i y 0 = 0 \/ nth i y 0 = 1)%Z.
Proof.
  intros B. destruct (Nat.lt_ge_cases i (length y)) as [L|L].
  - unfold binary in B. rewrite Forall_forall in B. apply B. now apply nth_In.
  - left. now apply nth_overflow.
Qed.

Section Descent.
Variable X : ndarray2 R.
Variable y : list Z.

Lemma spec_h_logistic w i : Spec.h X w i = logistic (Spec.z X w i).
Proof. rewrite <- sigmoid_logistic. reflexivity. Qed.

Lemma cross_entropy_xent w :
  Spec.cross_entropy X y w
  = Sum (shape0 X) (fun i => xent (Spec.z X w i) (nth i y 0%Z))
    / IZR (Z.of_nat (shape0 X)).
Proof. reflexivity. Qed.

Lemma z_new_weights alpha w i :
  Spec.z X (Spec.new_weights alpha X y w) i
  = Spec.z X w i
    + - alpha * Sum (shape1 X)
                  (fun j => Spec.entry X i j * Spec.gradient X y w j).
Proof.
  unfold Spec.z, Spec.n_features. rewrite <- Sum_scal, <- Sum_plus.
  apply sum_upto_ext. intros j Hj. unfold Spec.new_weights, Spec.n_features.
  rewrite nth_map_in with (d' := 0%nat) by (now rewrite length_seq).
  rewrite seq_nth by assumption. simpl. ring.
Qed.

Lemma descent_step alpha w :
  (1 <= shape0 X)%nat -> binary y ->
  0 <= alpha <= learning_rate_bound X ->
  Spec.cross_entropy X y (Spec.new_weights alpha X y w) <= Spec.cross_entropy X y w.
Proof.
  intros Hn B [Ha Hb]. rewrite !cross_entropy_xent.
  set (N := IZR (Z.of_nat (shape0 X))).
  assert (HN : 1 <= N) by (unfold N; apply IZR_le; lia).
  apply Rmult_le_compat_r; [apply Rlt_le, Rinv_0_lt_compat; lra|].
  set (r := fun i => logistic (Spec.z X w i) - IZR (nth i y 0%Z)).
  set (g := Spec.gradient X y w).
  set (d := fun i => Sum (shape1 X) (fun j => Spec.entry X i j * g j)).
  transitivity
    (Sum (shape0 X)
       (fun i => xent (Spec.z X w i) (nth i y 0%Z)
                 + (r i * (- alpha * d i)
                    + (- alpha * d i) * (- alpha * d i) / 8))).
  - apply Sum_le. intros i _. rewrite z_new_weights.
    pose proof (xent_step (Spec.z X w i) (- alpha * d i) (binary_nth i B)).
    unfold r, d, g in *. lra.
  - rewrite Sum_plus.
    assert (D : Sum (shape0 X)
                  (fun i => r i * (- alpha * d i)
                            + (- alpha * d i) * (- alpha * d i) / 8) <= 0).
    { apply descent_terms with (x := Spec.entry X) (g := g) (N := N)
                               (f := shape1 X); try lra.
      - intros j _.
        change (Sum (shape0 X)
                  (fun i => Spec.entry X i j
                            * (Spec.h X w i - IZR (nth i y 0%Z))) / N * N
                = Sum (shape0 X) (fun i => Spec.entry X i j * r i)).
        unfold Rdiv. rewrite Rmult_assoc, Rinv_l, Rmult_1_r by lra.
        apply sum_upto_ext. intros i _. unfold r.
        now rewrite spec_h_logistic.
      - intros i _. reflexivity.
      - fold (frobenius2 X). pose proof (frobenius2_nonneg X) as F.
        unfold learning_rate_bound in Hb.
        assert (alpha * (1 + frobenius2 X) <= 1).
        { apply Rmult_le_reg_r with (/ (1 + frobenius2 X));
            [apply Rinv_0_lt_compat; lra|].
          rewrite Rmult_assoc, Rinv_r by lra. lra. }
        nra. }
    lra.
Qed.
End Descent.

Close Scope R_scope.

(** After at least one pass, [J] holds the loss at the current weights. *)
Lemma passes_J (T : Type) (ops : Scalar T) (alpha : T) (X : ndarray2 T)
    (y : list Z) (max_iterations : Z) (k : nat) :
  forall s0 s : state,
    passes alpha X y max_iterations (S k) s0 = Ok s ->
    length (theta s) = shape1 X /\
    exists e, J s = Some e /\ loss X y (theta s) = Ok e.
Proof.
  induction k as [|k IH]; intros s0 s P; simpl in P;
    destruct (body alpha X y max_iterations s0) as [s1|] eqn:B;
    try discriminate; cbn [bind] in P.
  - injection P as <-. split; [eapply body_length; eassumption|].
    apply body_inv in B. destruct B as (th & e & _ & L & E & HJ & _).
    exists e. split; [exact HJ|]. now rewrite E.
  - apply (IH s1 s). exact P.
Qed.

(** One pass, in exact arithmetic and with a small learning rate, does not
    increase the loss. *)
Lemma body_descends (X : ndarray2 R) (y : list Z) (alpha : R)
    (max_iterations : Z) (s s' : state) (e e' : R) :
  rectangular X -> (1 <= shape0 X)%nat -> length y = shape0 X -> binary y ->
  (0 <= alpha <= learning_rate_bound X)%R ->
  length (theta s) = shape1 X -> loss X y (theta s) = Ok e ->
  body alpha X y max_iterations s = Ok s' -> J s' = Some e' ->
  (e' <= e)%R.
Proof.
  intros Rx Hn Ly B Ha Lt Le Hb HJ.
  apply body_inv in Hb. destruct Hb as (th & e1 & U & L1 & _ & HJ1 & _).
  rewrite update_new_weights in U by assumption. injection U as <-.
  rewrite loss_sum in L1, Le; trivial.
  2:{ unfold Spec.new_weights, Spec.n_features.
      now rewrite length_map, length_seq. }
  injection L1 as <-. injection Le as <-.
  rewrite HJ1 in HJ. injection HJ as <-.
  now apply descent_step.
Qed.

(** C8, amended.  In exact real arithmetic, for a rectangular matrix X of
    at least one row, as many labels in {0,1}, and every learning rate
    [0 < alpha <= 1 / (1 + sum of the squares of the entries of X)], a pass
    of the loop never increases the mean cross-entropy loss: the loss it
    prints is at most the loss at the weights it started from, and at most
    the loss the pass before it printed. *)
Theorem loss_never_increases (X : ndarray2 R) (y : list Z) (alpha : R)
    (max_iterations : Z) :
  rectangular X -> (1 <= shape0 X)%nat -> length y = shape0 X -> binary y ->
  (0 < alpha <= learning_rate_bound X)%R ->
  (0 < learning_rate_bound X)%R /\
  (forall (s s' : state) (e e' : R),
     length (theta s) = shape1 X -> loss X y (theta s) = Ok e ->
     body alpha X y max_iterations s = Ok s' -> J s' = Some e' ->
     (e' <= e)%R) /\
  (forall (k : nat) (s s' : state) (e e' : R),
     passes alpha X y max_iterations (S k) (init X) = Ok s ->
     body alpha X y max_iterations s = Ok s' ->
     J s = Some e -> J s' = Some e' -> (e' <= e)%R).
Proof.
  intros Rx Hn Ly B Ha.
  split; [apply learning_rate_bound_pos|].
  split.
  - intros s s' e e' Lt Le Hb HJ.
    eapply body_descends with (s := s); eauto. lra.
  - intros k s s' e e' P Hb HJ HJ'.
    apply passes_J in P. destruct P as (Lt & e0 & HJ0 & Le).
    assert (e0 = e) by congruence. subst e0.
    eapply body_descends with (s := s); eauto. lra.
Qed.

Lemma learning_rate_bound_and : learning_rate_bound X_and = (1 / 5)%R.
Proof.
  unfold learning_rate_bound, frobenius2, X_and, shape0, Spec.entry.
  simpl. f_equal. ring.
Qed.

Lemma loss_never_increases_witness :
  (0 < learning_rate_bound X_and)%R /\
  (forall (k : nat) (s s' : state) (e e' : R),
     passes 0.1%R X_and y_and 3 (S k) (init X_and) = Ok s ->
     body 0.1%R X_and y_and 3 s = Ok s' ->
     J s = Some e -> J s' = Some e' -> (e' <= e)%R).
Proof.
  destruct (@loss_never_increases X_and y_and 0.1%R 3) as (P & _ & D).
  - repeat constructor.
  - unfold shape0; simpl; lia.
  - reflexivity.
  - unfold binary, y_and. repeat (apply Forall_cons; [lia|]). apply Forall_nil.
  - rewrite learning_rate_bound_and. lra.
  - split; [exact P|exact D].
Defined.

(** * Overflow in binary64 *)

Lemma leb_nan_l (v : float) : PrimFloat.leb nan v = false.
Proof. rewrite leb_spec. reflexivity. Qed.

Lemma positive_times_neg_infinity (a : float) :
  PrimFloat.ltb 0 a = true -> PrimFloat.mul a neg_infinity = neg_infinity.
Proof.
  intros H. rewrite ltb_spec in H.
  apply Prim2SF_inj. rewrite mul_spec.
  change (Prim2SF neg_infinity) with (S754_infinity true).
  change (Prim2SF 0) with (S754_zero false) in H.
  destruct (Prim2SF a) as [s|s| |s m e]; try discriminate H.
  - destruct s; [discriminate H|reflexivity].
  - destruct s; [discriminate H|reflexivity].
Qed.

Lemma positive_leb_refl (a : float) :
  PrimFloat.ltb 0 a = true -> PrimFloat.leb a a = true.
Proof.
  intros H. rewrite ltb_spec in H. rewrite leb_spec.
  change (Prim2SF 0) with (S754_zero false) in H.
  destruct (Prim2SF a) as [s|s| |s m e]; try discriminate H.
  - destruct s; [discriminate H|reflexivity].
  - destruct s; [discriminate H|].
    unfold SFleb, SFcompare.
    rewrite Z.compare_refl, Pos.compare_cont_refl. reflexivity.
Qed.

(** With four samples of 1e308 and label 1 the sum in the gradient
    overflows, whatever the positive learning rate: the first update sets
    the weight to +infinity and the loss it prints is NaN. *)
Lemma first_pass_overflows (fexp flog : float -> float) (alpha : float) :
  annex_f fexp flog -> PrimFloat.ltb 0 alpha = true ->
  body (ops := binary64 fexp flog) alpha X_huge y_ones 3
    (init (ops := binary64 fexp flog) X_huge)
  = Ok {| converged := false; iterations := 1; theta := [infinity];
          J := Some nan; stdout := [PrintJ nan] |}.
Proof.
  intros libm Ha.
  pose proof (positive_times_neg_infinity Ha) as M. cbv in M.
  cbv. repeat (first [libm_step libm | rewrite !M; cbv]). reflexivity.
Qed.

(** C8, as stated, fails in binary64.  On four samples of 1e308 with label
    1, for every exp and log with the special values of Annex F: whatever
    the positive learning rate, the loss printed by the first pass is NaN,
    which is not [<=] the loss at the initial weights nor any other value;
    with the learning rate 0.1 all three passes print NaN.  So no positive
    learning rate is small enough for the loss after a pass to be [<=] the
    loss before it on every well-shaped input. *)
Lemma loss_order_fails_in_binary64 :
  (forall (fexp flog : float -> float) (alpha : float),
     annex_f fexp flog -> PrimFloat.ltb 0 alpha = true ->
     exists s1 : state,
       body (ops := binary64 fexp flog) alpha X_huge y_ones 3
         (init (ops := binary64 fexp flog) X_huge) = Ok s1 /\
       J s1 = Some nan /\ theta s1 = [infinity] /\
       forall e : float, PrimFloat.leb nan e = false) /\
  (forall fexp flog : float -> float, annex_f fexp flog ->
     run (ops := binary64 fexp flog) alpha_main X_huge y_ones 3 4
     = Some (Ok {| converged := true; iterations := 3; theta := [infinity];
                   J := Some nan;
                   stdout := [PrintJ nan; PrintJ nan; PrintJ nan;
                              PrintMax] |})) /\
  ~ (forall fexp flog : float -> float, annex_f fexp flog ->
     forall (X : ndarray2 float) (y : list Z),
       rectangular X -> 1 <= shape0 X -> length y = shape0 X -> binary y ->
       exists alpha0 : float,
         PrimFloat.ltb 0 alpha0 = true /\
         forall alpha : float,
           PrimFloat.ltb 0 alpha = true -> PrimFloat.leb alpha alpha0 = true ->
           forall (max_iterations : Z) (s s' : state) (e e' : float),
             length (theta s) = shape1 X ->
             loss (ops := binary64 fexp flog) X y (theta s) = Ok e ->
             body (ops := binary64 fexp flog) alpha X y max_iterations s
               = Ok s' ->
             J s' = Some e' -> PrimFloat.leb e' e = true).
Proof.
  split; [|split].
  - intros fexp flog alpha libm Ha. eexists.
    split; [apply first_pass_overflows; assumption|].
    repeat split. apply leb_nan_l.
  - intros fexp flog libm. libm_eval libm.
  - intros H.
    destruct (H exp_special log_special annex_f_special X_huge y_ones)
      as (alpha0 & Pos & D).
    + repeat constructor.
    + unfold shape0; simpl; lia.
    + reflexivity.
    + unfold binary, y_ones. repeat (apply Forall_cons; [lia|]). apply Forall_nil.
    + specialize (D alpha0 Pos (positive_leb_refl Pos) 3%Z
                    (init (ops := binary64 exp_special log_special) X_huge)
                    {| converged := false; iterations := 1;
                       theta := [infinity]; J := Some nan;
                       stdout := [PrintJ nan] |}
                    nan nan eq_refl).
      rewrite leb_nan_l in D. discriminate D.
      * vm_compute. reflexivity.
      * apply first_pass_overflows; [exact annex_f_special|exact Pos].
      * reflexivity.
Qed.

(** * Mismatched shapes *)

(** Labels that are neither as many as the rows of X nor a single one make
    the first update raise: [h - y] does not broadcast, or its result does
    not align with [X.T]. *)
Lemma update_raises (T : Type) (ops : Scalar T) (alpha : T)
    (X : ndarray2 T) (y : list Z) (th : list T) :
  length y <> shape0 X -> length y <> 1 ->
  update alpha X y th = ValueError.
Proof.
  intros Hn H1. unfold update.
  destruct (dot X th) as [z|] eqn:Ez; [|reflexivity]. cbn [bind].
  apply dot_ok_shape in Ez. destruct Ez as [_ Lz].
  destruct (broadcast2 (fun hi yi => ssub hi (of_int yi))
              (sigmoid_function z) y) as [d|] eqn:Ed; [|reflexivity].
  cbn [bind]. apply broadcast2_ok_length in Ed.
  rewrite length_sigmoid, Lz in Ed. unfold bshape in Ed.
  destruct (Nat.eqb_spec (shape0 X) (length y)) as [E|_]; [congruence|].
  destruct (Nat.eqb_spec (length y) 1) as [E|_]; [congruence|].
  destruct (Nat.eqb_spec (shape0 X) 1) as [E|_]; [|discriminate].
  injection Ed as Ld. unfold dot. simpl shape1.
  destruct (Nat.eqb_spec (shape0 X) (length d)) as [E'|_]; [congruence|].
  reflexivity.
Qed.

(** So does the call, in its first pass and whatever [max_iterations] is. *)
Theorem logistic_reg_raises (T : Type) (ops : Scalar T) (alpha : T)
    (X : ndarray2 T) (y : list Z) (max_iterations : Z) (fuel : nat) :
  length y <> shape0 X -> length y <> 1 ->
  logistic_reg alpha X y max_iterations (S fuel) = Some ValueError.
Proof.
  intros Hn H1. unfold logistic_reg, run. simpl.
  assert (B : body alpha X y max_iterations (init X) = ValueError)
    by (apply body_raises, update_raises; assumption).
  now rewrite B.
Qed.

Lemma logistic_reg_raises_witness :
  logistic_reg 0.1%R X_and [0; 1; 0]%Z 0 1 = Some ValueError.
Proof.
  apply (@logistic_reg_raises R real_arith 0.1%R X_and [0; 1; 0]%Z 0 0).
  - unfold shape0; simpl; lia.
  - simpl; lia.
Defined.

(** * The transcript of a run *)

Section Transcript.
Context {T : Type} {ops : Scalar T}.
Variable alpha : T.
Variable X : ndarray2 T.
Variable y : list Z.
Variable max_iterations : Z.

(** From a state [k+1] passes short of [max_iterations]: what the passes
    append to the transcript, and what [J] holds at the end. *)
Lemma passes_transcript k : forall s s',
  converged s = false ->
  (iterations s + Z.of_nat (S k))%Z = max_iterations ->
  passes alpha X y max_iterations (S k) s = Ok s' ->
  exists es e,
    losses alpha X y (S k) (theta s) = Ok (es ++ [e]) /\
    stdout s' = stdout s ++ map (@PrintJ T) (es ++ [e]) ++ [PrintMax] /\
    J s' = Some e.
Proof.
  induction k as [|k IH]; intros s s' C I P.
  - simpl in P.
    destruct (body alpha X y max_iterations s) as [s1|] eqn:B; [|discriminate].
    cbn [bind] in P. injection P as <-.
    apply body_inv in B. destruct B as (th & e & U & L & _ & HJ & _ & _ & O).
    assert (E : Z.eqb (iterations s + 1) max_iterations = true)
      by (apply Z.eqb_eq; lia).
    rewrite E in O. exists [], e. simpl. rewrite U. cbn [bind].
    rewrite L. cbn [bind]. repeat split; trivial.
  - change (passes alpha X y max_iterations (S (S k)) s)
      with (s0 <- body alpha X y max_iterations s ;;
            passes alpha X y max_iterations (S k) s0) in P.
    destruct (body alpha X y max_iterations s) as [s1|] eqn:B; [|discriminate].
    cbn [bind] in P.
    apply body_inv in B.
    destruct B as (th & e & U & L & Et & _ & I1 & C1 & O).
    assert (E : Z.eqb (iterations s + 1) max_iterations = false)
      by (apply Z.eqb_neq; lia).
    rewrite E in O, C1. rewrite C in C1.
    destruct (IH s1 s' C1 ltac:(lia) P) as (es & e' & Ls & Os & HJ).
    exists (e :: es), e'.
    change (losses alpha X y (S (S k)) (theta s))
      with (th' <- update alpha X y (theta s) ;;
            e0 <- loss X y th' ;;
            es0 <- losses alpha X y (S k) th' ;;
            Ok (e0 :: es0)).
    rewrite U. cbn [bind]. rewrite L. cbn [bind].
    rewrite <- Et, Ls. cbn [bind].
    repeat split; trivial.
    rewrite Os, O, <- app_assoc. reflexivity.
Qed.
End Transcript.

(** What a finished run has printed: the losses at the weights after 1, 2,
    ..., [max_iterations] updates, in this order, then the line "Maximum
    iterations exceeded!" once, as the last line; and [J] is the last loss
    printed. *)
Theorem run_transcript (T : Type) (ops : Scalar T) (alpha : T)
    (X : ndarray2 T) (y : list Z) (max_iterations : Z) :
  length y = shape0 X -> (1 <= max_iterations)%Z ->
  exists (s : state) (es : list T) (e : T),
    run alpha X y max_iterations (S (Z.to_nat max_iterations)) = Some (Ok s) /\
    losses alpha X y (Z.to_nat max_iterations) (zeros (shape1 X))
      = Ok (es ++ [e]) /\
    stdout s = map (@PrintJ T) (es ++ [e]) ++ [PrintMax] /\
    J s = Some e /\
    length (es ++ [e]) = Z.to_nat max_iterations.
Proof.
  intros Ly Hm.
  destruct (Z.to_nat max_iterations) as [|k] eqn:Ek; [lia|].
  destruct (@while_countdown T ops alpha X y max_iterations k (init X))
    as (s & P & W & _ & _); trivial.
  - unfold init, zeros; simpl. apply repeat_length.
  - simpl iterations. lia.
  - destruct (@passes_transcript T ops alpha X y max_iterations k (init X) s)
      as (es & e & L & O & HJ); trivial.
    + simpl iterations. lia.
    + exists s, es, e. repeat split; trivial.
      pose proof P as C. apply passes_count_J in C. simpl in C.
      rewrite O in C. simpl in C.
      rewrite count_J_app in C. simpl in C.
      assert (N : forall l : list T, count_J (map (@PrintJ T) l) = length l)
        by (induction l; simpl; congruence).
      rewrite N in C. lia.
Qed.

Lemma run_transcript_witness :
  exists (s : state) (es : list R) (e : R),
    run 0.1%R X_and y_and 3 4 = Some (Ok s) /\
    stdout s = map (@PrintJ R) (es ++ [e]) ++ [PrintMax] /\
    length (es ++ [e]) = 3.
Proof.
  destruct (@run_transcript R real_arith 0.1%R X_and y_and 3)
    as (s & es & e & W & _ & O & _ & L).
  - reflexivity.
  - lia.
  - exists s, es, e. repeat split; assumption.
Defined.

(** * The loss and the probabilities in exact arithmetic *)

Open Scope R_scope.

Lemma softplus_pos (z : R) : 0 < softplus z.
Proof.
  unfold softplus. pose proof (exp_pos z) as P.
  rewrite <- ln_1. apply ln_increasing; lra.
Qed.

Lemma xent_pos (z : R) (y : Z) : (y = 0 \/ y = 1)%Z -> 0 < xent z y.
Proof.
  intros B. rewrite xent_softplus by assumption.
  destruct B as [-> | ->].
  - pose proof (softplus_pos z). lra.
  - pose proof (softplus_neg z) as N. pose proof (exp_pos (- z)) as P.
    assert (0 < ln (1 + Rtrigo_def.exp (- z)))
      by (rewrite <- ln_1; apply ln_increasing; lra).
    lra.
Qed.

Lemma Sum_pos n (f : nat -> R) :
  (1 <= n)%nat -> (forall k, (k < n)%nat -> 0 < f k) ->
  0 < @Spec.sum_upto R real_arith n f.
Proof.
  intros Hn H. destruct n as [|n]; [lia|].
  rewrite Sum_S.
  assert (0 <= @Spec.sum_upto R real_arith n f)
    by (apply Sum_nonneg; intros; apply Rlt_le, H; lia).
  assert (0 < f n) by (apply H; lia). lra.
Qed.

Lemma cross_entropy_pos (X : ndarray2 R) (y : list Z) (w : list R) :
  (1 <= shape0 X)%nat -> binary y -> 0 < Spec.cross_entropy X y w.
Proof.
  intros Hn B. rewrite cross_entropy_xent.
  apply Rdiv_lt_0_compat.
  - apply Sum_pos; [assumption|]. intros i _. apply xent_pos, binary_nth, B.
  - apply IZR_lt. lia.
Qed.

(** In exact arithmetic, on a rectangular matrix of at least one row with
    as many labels, all in {0,1}, every loss the loop prints is strictly
    positive, whatever the learning rate and the weights. *)
Theorem printed_loss_positive (X : ndarray2 R) (y : list Z) (alpha : R)
    (max_iterations : Z) :
  rectangular X -> (1 <= shape0 X)%nat -> length y = shape0 X -> binary y ->
  forall (s s' : state) (e : R),
    body alpha X y max_iterations s = Ok s' -> J s' = Some e -> 0 < e.
Proof.
  intros Rx Hn Ly B s s' e Hb HJ.
  apply body_inv in Hb. destruct Hb as (th & e1 & U & L & _ & HJ1 & _).
  apply update_ok_shape in U. destruct U as (_ & Lt & _).
  rewrite loss_sum in L by assumption. injection L as <-.
  rewrite HJ1 in HJ. injection HJ as <-.
  now apply cross_entropy_pos.
Qed.

Lemma printed_loss_positive_witness :
  (1 <= shape0 X_and)%nat /\
  forall (s s' : state) (e : R),
    body 0.1 X_and y_and 3 s = Ok s' -> J s' = Some e -> 0 < e.
Proof.
  assert (N : (1 <= shape0 X_and)%nat) by (unfold shape0; simpl; lia).
  split; [exact N|].
  apply (@printed_loss_positive X_and y_and 0.1 3).
  - repeat constructor.
  - exact N.
  - reflexivity.
  - unfold binary, y_and. repeat (apply Forall_cons; [lia|]). apply Forall_nil.
Defined.

(** The logistic function is strictly increasing, and 1/2 at 0. *)
Lemma sigmoid1_increasing (z1 z2 : R) : z1 < z2 -> sigmoid1 z1 < sigmoid1 z2.
Proof.
  intros L. unfold sigmoid1, one; simpl.
  pose proof (exp_pos (- z1)) as P1. pose proof (exp_pos (- z2)) as P2.
  assert (E : Rtrigo_def.exp (- z2) < Rtrigo_def.exp (- z1))
    by (apply exp_increasing; lra).
  unfold Rdiv. rewrite !Rmult_1_l.
  apply Rinv_lt_contravar; [nra|lra].
Qed.

Lemma sigmoid1_zero : sigmoid1 0 = 1 / 2.
Proof. unfold sigmoid1, one; simpl. rewrite Ropp_0, exp_0. lra. Qed.

Lemma sigmoid1_order (z1 z2 : R) : sigmoid1 z1 < sigmoid1 z2 <-> z1 < z2.
Proof.
  split; [|apply sigmoid1_increasing].
  intros L. destruct (Rtotal_order z1 z2) as [H|[H|H]]; [assumption| |].
  - subst. lra.
  - apply sigmoid1_increasing in H. lra.
Qed.

(** The decision boundary.  In exact arithmetic the probability that
    [predict_prob] returns for a row is above, at or below 1/2 exactly when
    the score [X . theta] of the row is above, at or below 0, and of two
    rows the one with the larger score has the larger probability. *)
Theorem decision_boundary (X : ndarray2 R) (g : globals R) (p : list R) :
  rectangular X -> shape1 X = length (g_theta g) ->
  fst (predict_prob X g) = Ok p ->
  forall i : nat, (i < shape0 X)%nat ->
    (1 / 2 < nth i p 0 <-> 0 < Spec.z X (g_theta g) i) /\
    (nth i p 0 = 1 / 2 <-> Spec.z X (g_theta g) i = 0) /\
    (nth i p 0 < 1 / 2 <-> Spec.z X (g_theta g) i < 0) /\
    forall k : nat, (k < shape0 X)%nat ->
      (nth i p 0 < nth k p 0
       <-> Spec.z X (g_theta g) i < Spec.z X (g_theta g) k).
Proof.
  intros Rx E H.
  unfold predict_prob in H. cbn [fst] in H.
  rewrite sigmoid_dot in H by assumption. injection H as <-.
  assert (N : forall i, (i < shape0 X)%nat ->
            nth i (map (Spec.h X (g_theta g)) (seq 0 (shape0 X))) 0
            = sigmoid1 (Spec.z X (g_theta g) i)).
  { intros i Hi.
    rewrite nth_map_in with (d' := 0%nat) by (now rewrite length_seq).
    now rewrite seq_nth. }
  intros i Hi. rewrite (N i Hi). rewrite <- sigmoid1_zero.
  split; [apply sigmoid1_order|].
  split.
  - split; [|now intros ->].
    intros Q. destruct (Rtotal_order (Spec.z X (g_theta g) i) 0)
      as [L|[L|L]]; [|assumption|];
      apply sigmoid1_increasing in L; lra.
  - split; [apply sigmoid1_order|].
    intros k Hk. rewrite (N k Hk). apply sigmoid1_order.
Qed.

Lemma decision_boundary_witness :
  exists p : list R,
    fst (predict_prob X_and {| g_theta := [1; -1] |}) = Ok p /\
    (nth 1 p 0 < 1 / 2) /\ (nth 0 p 0 = 1 / 2) /\ (1 / 2 < nth 2 p 0).
Proof.
  pose (g := {| g_theta := [1; -1] |}).
  exists (map (fun r => sigmoid1 (inner r (g_theta g))) (rows X_and)).
  assert (Rx : rectangular X_and) by repeat constructor.
  assert (H : fst (predict_prob X_and g)
              = Ok (map (fun r => sigmoid1 (inner r (g_theta g))) (rows X_and)))
    by reflexivity.
  split; [exact H|].
  pose proof (@decision_boundary X_and g _ Rx eq_refl H) as D.
  assert (Z0 : Spec.z X_and (g_theta g) 0 = 0)
    by (unfold Spec.z, Spec.entry; simpl; ring).
  assert (Z1 : Spec.z X_and (g_theta g) 1 = -1)
    by (unfold Spec.z, Spec.entry; simpl; ring).
  assert (Z2 : Spec.z X_and (g_theta g) 2 = 1)
    by (unfold Spec.z, Spec.entry; simpl; ring).
  assert (L : forall i, (i < 4)%nat -> (i < shape0 X_and)%nat)
    by (intros; unfold shape0; simpl; lia).
  split; [|split].
  - apply (D 1%nat (L 1%nat ltac:(lia))). rewrite Z1. lra.
  - apply (D 0%nat (L 0%nat ltac:(lia))). exact Z0.
  - apply (D 2%nat (L 2%nat ltac:(lia))). rewrite Z2. lra.
Defined.

Close Scope R_scope.
(** * Training, then predicting *)

(** A run on matching shapes with [max_iterations >= 1]: it finishes at
    the [max_iterations+1]-th test of the condition, not before, with as
    many weights as X has columns. *)
Lemma run_finishes (T : Type) (ops : Scalar T) (alpha : T)
    (X : ndarray2 T) (y : list Z) (max_iterations : Z) :
  length y = shape0 X -> (1 <= max_iterations)%Z ->
  exists th : list T,
    logistic_reg alpha X y max_iterations (S (Z.to_nat max_iterations))
      = Some (Ok th) /\
    length th = shape1 X /\
    forall fuel, fuel <= Z.to_nat max_iterations ->
      logistic_reg alpha X y max_iterations fuel = None.
Proof.
  intros Ly Hm.
  assert (L0 : length (theta (init X)) = shape1 X)
    by (unfold init, zeros; simpl; apply repeat_length).
  destruct (Z.to_nat max_iterations) as [|k] eqn:Ek; [lia|].
  destruct (@while_countdown T ops alpha X y max_iterations k (init X))
    as (s & P & W & N & _); trivial.
  - simpl iterations. lia.
  - exists (theta s). unfold logistic_reg, run. rewrite W.
    split; [reflexivity|]. split.
    + eapply passes_length; eassumption.
    + intros fuel Hf. now rewrite (N fuel Hf).
Qed.

(** The weights a run returns fit every matrix with as many columns as the
    training matrix: [predict_prob] then returns one probability per row
    and leaves the weights as they are; on a matrix with another number of
    columns it raises ValueError. *)
Theorem train_then_predict (T : Type) (ops : Scalar T) (alpha : T)
    (X : ndarray2 T) (y : list Z) (max_iterations : Z) :
  length y = shape0 X -> (1 <= max_iterations)%Z ->
  exists th : list T,
    logistic_reg alpha X y max_iterations (S (Z.to_nat max_iterations))
      = Some (Ok th) /\
    forall X' : ndarray2 T,
      (shape1 X' = shape1 X ->
       exists p : list T,
         predict_prob X' {| g_theta := th |} = (Ok p, {| g_theta := th |}) /\
         length p = shape0 X') /\
      (shape1 X' <> shape1 X ->
       predict_prob X' {| g_theta := th |}
       = (ValueError, {| g_theta := th |})).
Proof.
  intros Ly Hm.
  destruct (@run_finishes T ops alpha X y max_iterations Ly Hm)
    as (th & E & L & _).
  exists th. split; [exact E|]. intros X'. split.
  - intros S1. unfold predict_prob. cbn [g_theta].
    rewrite dot_ok_iff by congruence. cbn [bind].
    eexists. split; [reflexivity|].
    now rewrite length_sigmoid, length_map.
  - intros S1. unfold predict_prob, dot. cbn [g_theta].
    destruct (Nat.eqb_spec (shape1 X') (length th)) as [E'|_]; [congruence|].
    reflexivity.
Qed.

Lemma train_then_predict_witness :
  exists th : list R,
    logistic_reg 0.1%R X_and y_and 3 4 = Some (Ok th) /\
    exists p : list R,
      fst (predict_prob X_and {| g_theta := th |}) = Ok p /\ length p = 4.
Proof.
  destruct (@train_then_predict R real_arith 0.1%R X_and y_and 3)
    as (th & E & P).
  - reflexivity.
  - lia.
  - exists th. split; [exact E|].
    destruct (proj1 (P X_and) eq_refl) as (p & Q & L).
    exists p. rewrite Q. split; [reflexivity|exact L].
Defined.

(** * The main block *)

Lemma nonzero_labels_binary (target : list Z) : binary (nonzero_labels target).
Proof.
  unfold binary, nonzero_labels. apply Forall_forall. intros v Hv.
  apply in_map_iff in Hv. destruct Hv as (t & <- & _).
  destruct (Z.eqb t 0); simpl; lia.
Qed.

Lemma first_two_columns_rectangular (T : Type) (D : ndarray2 T) :
  rectangular D -> rectangular (first_two_columns D).
Proof.
  unfold rectangular, first_two_columns. cbn [rows shape1]. intros R.
  apply Forall_forall. intros r Hr.
  apply in_map_iff in Hr. destruct Hr as (r0 & <- & H0).
  rewrite Forall_forall in R. rewrite length_firstn. now rewrite (R r0 H0).
Qed.

(** The data of the main block meets what the training needs.  For every
    rectangular dataset with one target per sample: the labels
    [(target != 0) * 1] are in {0,1}, one per sample; [data[:, :2]] is
    rectangular, with the same samples and at most two columns (two when the
    dataset has at least two); and the call with [max_iterations=70000]
    returns, after 70000 passes and not before, one weight per column
    kept. *)
Theorem main_block_trains (T : Type) (ops : Scalar T) (alpha : T)
    (D : ndarray2 T) (target : list Z) :
  rectangular D -> length target = shape0 D ->
  binary (nonzero_labels target) /\
  length (nonzero_labels target) = shape0 (first_two_columns D) /\
  rectangular (first_two_columns D) /\
  shape0 (first_two_columns D) = shape0 D /\
  (2 <= shape1 D -> shape1 (first_two_columns D) = 2) /\
  exists th : list T,
    main_train alpha D target (S (Z.to_nat 70000)) = Some (Ok th) /\
    length th = Nat.min 2 (shape1 D) /\
    forall fuel, fuel <= Z.to_nat 70000 ->
      main_train alpha D target fuel = None.
Proof.
  intros R Lt.
  assert (S0 : shape0 (first_two_columns D) = shape0 D)
    by (unfold shape0, first_two_columns; cbn [rows]; apply length_map).
  assert (Ly : length (nonzero_labels target) = shape0 (first_two_columns D))
    by (unfold nonzero_labels; rewrite length_map; congruence).
  split; [apply nonzero_labels_binary|].
  split; [exact Ly|].
  split; [now apply first_two_columns_rectangular|].
  split; [exact S0|].
  split; [intros H; unfold first_two_columns; cbn [shape1]; lia|].
  unfold main_train.
  destruct (@run_finishes T ops alpha (first_two_columns D)
              (nonzero_labels target) 70000 Ly ltac:(lia))
    as (th & E & L & N).
  exists th. split; [exact E|]. split; [exact L|exact N].
Qed.

Lemma main_block_trains_witness :
  exists th : list R,
    main_train 0.1%R X_and [0; 2; 1; 0]%Z (S (Z.to_nat 70000))
      = Some (Ok th) /\
    length th = 2.
Proof.
  destruct (@main_block_trains R real_arith 0.1%R X_and [0; 2; 1; 0]%Z)
    as (_ & _ & _ & _ & _ & th & E & L & _).
  - repeat constructor.
  - reflexivity.
  - exists th. split; [exact E|exact L].
Defined.
(** * A single label *)

Section SingleLabel.
Context {T : Type} {ops : Scalar T}.

Lemma broadcast2_single_r A B C (f : A -> B -> C) (a : list A) (v : B) :
  broadcast2 f a [v] = Ok (map (fun x => f x v) a).
Proof.
  unfold broadcast2. destruct a as [|a0 [|a1 a']]; reflexivity.
Qed.

Lemma broadcast2_single_l A B C (f : A -> B -> C) (u : A) (b : list B) :
  broadcast2 f [u] b = Ok (map (fun x => f u x) b).
Proof.
  unfold broadcast2. destruct b as [|b0 [|b1 b']]; reflexivity.
Qed.

Lemma map_combine_repeat_r A B C (f : A -> B -> C) (v : B) (l : list A) n :
  length l = n ->
  map (fun p => f (fst p) (snd p)) (combine l (repeat v n))
  = map (fun x => f x v) l.
Proof.
  intros <-. induction l as [|x l IH]; simpl; [reflexivity|]. now rewrite IH.
Qed.

Lemma map_combine_repeat_l A B C (f : A -> B -> C) (u : A) (l : list B) n :
  length l = n ->
  map (fun p => f (fst p) (snd p)) (combine (repeat u n) l)
  = map (fun x => f u x) l.
Proof.
  intros <-. induction l as [|x l IH]; simpl; [reflexivity|]. now rewrite IH.
Qed.

Lemma map_repeat A B (f : A -> B) (v : A) (n : nat) :
  map f (repeat v n) = repeat (f v) n.
Proof. induction n as [|n IH]; simpl; [reflexivity|]. now rewrite IH. Qed.

(** One label costs what the label repeated for every row costs. *)
Lemma cost_single_label (h : list T) (v : Z) :
  cost_function h [v] = cost_function h (repeat v (length h)).
Proof.
  unfold cost_function. cbn [map].
  rewrite !broadcast2_single_l. cbn [bind].
  rewrite !map_repeat.
  rewrite (broadcast2_same_length _ (repeat (- v)%Z (length h)) (map slog h))
    by (now rewrite repeat_length, length_map).
  rewrite (broadcast2_same_length _ (repeat (1 - v)%Z (length h))
             (map (fun hi => slog (ssub one hi)) h))
    by (now rewrite repeat_length, length_map).
  cbn [bind].
  rewrite (map_combine_repeat_l (fun yi l => smul (of_int yi) l) (- v)%Z
             (map slog h) (n := length h)) by apply length_map.
  rewrite (map_combine_repeat_l (fun yi l => smul (of_int yi) l) (1 - v)%Z
             (map (fun hi => slog (ssub one hi)) h) (n := length h))
    by apply length_map.
  reflexivity.
Qed.

Lemma loss_single_label (X : ndarray2 T) (v : Z) (w : list T) :
  loss X [v] w = loss X (repeat v (shape0 X)) w.
Proof.
  unfold loss. destruct (dot X w) as [z|] eqn:E; [|reflexivity].
  cbn [bind]. apply dot_ok_shape in E. destruct E as [_ L].
  rewrite cost_single_label. now rewrite length_sigmoid, L.
Qed.

(** The update with one label: the gradient is the sum over the rows,
    divided by [y.size = 1]. *)
Lemma update_single_label (alpha : T) (X : ndarray2 T) (v : Z) (w : list T) :
  update alpha X [v] w
  = (z <- dot X w ;;
     let d := map (fun hi => ssub hi (of_int v)) (sigmoid_function z) in
     g <- dot (transpose X) d ;;
     broadcast2 ssub w
       (map (smul alpha) (map (fun gi => sdiv gi (of_int 1)) g))).
Proof.
  unfold update. destruct (dot X w) as [z|]; [|reflexivity]. cbn [bind].
  rewrite broadcast2_single_r. reflexivity.
Qed.

Lemma update_repeated_label (alpha : T) (X : ndarray2 T) (v : Z) (w : list T) :
  update alpha X (repeat v (shape0 X)) w
  = (z <- dot X w ;;
     let d := map (fun hi => ssub hi (of_int v)) (sigmoid_function z) in
     g <- dot (transpose X) d ;;
     broadcast2 ssub w
       (map (smul alpha)
          (map (fun gi => sdiv gi (of_int (Z.of_nat (shape0 X)))) g))).
Proof.
  unfold update. destruct (dot X w) as [z|] eqn:E; [|reflexivity].
  cbn [bind]. apply dot_ok_shape in E. destruct E as [_ L].
  rewrite broadcast2_same_length
    by (now rewrite repeat_length, length_sigmoid).
  cbn [bind].
  rewrite (map_combine_repeat_r (fun hi yi => ssub hi (of_int yi)) v
             (sigmoid_function z) (n := shape0 X))
    by (now rewrite length_sigmoid).
  unfold size. now rewrite repeat_length.
Qed.

(** Loops whose bodies agree run alike. *)
Lemma while_ext (alpha1 alpha2 : T) (X : ndarray2 T) (y1 y2 : list Z)
    (max_iterations : Z) :
  (forall s, body alpha1 X y1 max_iterations s
             = body alpha2 X y2 max_iterations s) ->
  forall fuel s,
    while alpha1 X y1 max_iterations fuel s
    = while alpha2 X y2 max_iterations fuel s.
Proof.
  intros E fuel. induction fuel as [|fuel IH]; intros s; [reflexivity|].
  simpl. rewrite E. destruct (converged s); [reflexivity|].
  destruct (body alpha2 X y2 max_iterations s); [apply IH|reflexivity].
Qed.
End SingleLabel.

(** A label vector of length 1 is accepted and broadcast to every row, but
    the gradient is divided by [y.size = 1], not by the number of rows.  In
    exact arithmetic the whole run (weights, printed losses, counter) is the
    run with that label repeated for each of the [n >= 1] rows and the
    learning rate multiplied by [n]. *)
Theorem single_label_run (X : ndarray2 R) (v : Z) (alpha : R)
    (max_iterations : Z) (fuel : nat) :
  (1 <= shape0 X)%nat ->
  run alpha X [v] max_iterations fuel
  = run (alpha * IZR (Z.of_nat (shape0 X)))%R X (repeat v (shape0 X))
        max_iterations fuel.
Proof.
  intros Hn. unfold run.
  apply while_ext. intros s. unfold body.
  assert (U : forall w,
            update alpha X [v] w
            = update (alpha * IZR (Z.of_nat (shape0 X)))%R X
                (repeat v (shape0 X)) w).
  { intros w. rewrite update_single_label, update_repeated_label.
    destruct (dot X w) as [z|]; [|reflexivity]. cbn [bind].
    cbv zeta. destruct (dot (transpose X) _) as [g|]; [|reflexivity].
    cbn [bind]. f_equal. rewrite !map_map. apply map_ext. intros gi.
    assert (N : (1 <= IZR (Z.of_nat (shape0 X)))%R) by (apply IZR_le; lia).
    simpl. field. lra. }
  rewrite U.
  destruct (update _ X (repeat v (shape0 X)) (theta s)) as [th|];
    [|reflexivity].
  cbn [bind]. now rewrite loss_single_label.
Qed.

Lemma single_label_run_witness :
  run 0.1%R X_and [1%Z] 3 4
  = run (0.1 * IZR (Z.of_nat (shape0 X_and)))%R X_and [1; 1; 1; 1]%Z 3 4.
Proof.
  apply (@single_label_run X_and 1%Z 0.1%R 3 4).
  unfold shape0; simpl; lia.
Defined.
(** * NaN weights in binary64 *)

Lemma add_nan_r (x : float) : PrimFloat.add x nan = nan.
Proof.
  apply Prim2SF_inj. rewrite add_spec.
  change (Prim2SF nan) with S754_nan. now destruct (Prim2SF x).
Qed.

Lemma add_nan_l (x : float) : PrimFloat.add nan x = nan.
Proof.
  apply Prim2SF_inj. rewrite add_spec.
  change (Prim2SF nan) with S754_nan. now destruct (Prim2SF x).
Qed.

Lemma sub_nan_r (x : float) : PrimFloat.sub x nan = nan.
Proof.
  apply Prim2SF_inj. rewrite sub_spec.
  change (Prim2SF nan) with S754_nan. now destruct (Prim2SF x).
Qed.

Lemma sub_nan_l (x : float) : PrimFloat.sub nan x = nan.
Proof.
  apply Prim2SF_inj. rewrite sub_spec.
  change (Prim2SF nan) with S754_nan. now destruct (Prim2SF x).
Qed.

Lemma mul_nan_r (x : float) : PrimFloat.mul x nan = nan.
Proof.
  apply Prim2SF_inj. rewrite mul_spec.
  change (Prim2SF nan) with S754_nan. now destruct (Prim2SF x).
Qed.

Lemma div_nan_l (x : float) : PrimFloat.div nan x = nan.
Proof.
  apply Prim2SF_inj. rewrite div_spec.
  change (Prim2SF nan) with S754_nan. now destruct (Prim2SF x).
Qed.

Lemma div_nan_r (x : float) : PrimFloat.div x nan = nan.
Proof.
  apply Prim2SF_inj. rewrite div_spec.
  change (Prim2SF nan) with S754_nan. now destruct (Prim2SF x).
Qed.

Section NaN.
Variables fexp flog : float -> float.
Hypothesis exp_nan : fexp nan = nan.

Let arith : Scalar float := binary64 fexp flog.
Existing Instance arith.

Lemma fold_from_nan (l : list (float * float)) :
  fold_left (fun acc p => sadd acc (smul (fst p) (snd p))) l nan = nan.
Proof.
  induction l as [|p l IH]; [reflexivity|].
  simpl. now rewrite add_nan_l.
Qed.

(** An inner product with a NaN among the weights it meets is NaN. *)
Lemma inner_nan (b : list float) : forall (a : list float) (acc : float),
  length a = length b -> In nan b ->
  fold_left (fun acc p => sadd acc (smul (fst p) (snd p))) (combine a b) acc
  = nan.
Proof.
  induction b as [|v b IH]; intros a acc L H; [destruct H|].
  destruct a as [|x a]; [discriminate L|]. simpl in L. injection L as L.
  simpl. destruct H as [-> | H].
  - rewrite mul_nan_r, add_nan_r. apply fold_from_nan.
  - now apply IH.
Qed.

Lemma sigmoid1_nan : sigmoid1 nan = nan.
Proof.
  unfold sigmoid1.
  change (PrimFloat.div 1 (PrimFloat.add 1 (fexp nan)) = nan).
  now rewrite exp_nan, add_nan_r, div_nan_r.
Qed.

Lemma all_nan_repeat (l : list float) :
  Forall (fun v => v = nan) l -> l = repeat nan (length l).
Proof.
  induction 1 as [|v l -> _ IH]; simpl; [reflexivity|]. now rewrite <- IH.
Qed.

Variable alpha : float.
Variable X : ndarray2 float.
Variable y : list Z.

(** One NaN among the weights makes every weight NaN at the next update. *)
Lemma update_nan (th : list float) :
  rectangular X -> 1 <= shape0 X -> length y = shape0 X ->
  length th = shape1 X -> In nan th ->
  update alpha X y th = Ok (repeat nan (shape1 X)).
Proof.
  intros Rx Hn Ly Lt Hnan. unfold update.
  rewrite dot_ok_iff by congruence. cbn [bind].
  assert (Hz : map (fun r => inner r th) (rows X) = repeat nan (shape0 X)).
  { unfold shape0. rewrite <- (length_map (fun r => inner r th)).
    apply all_nan_repeat. apply Forall_forall. intros v Hv.
    apply in_map_iff in Hv. destruct Hv as (r & <- & Hr).
    unfold rectangular in Rx. rewrite Forall_forall in Rx.
    apply inner_nan; [|assumption]. rewrite (Rx r Hr). congruence. }
  rewrite Hz.
  assert (H : sigmoid_function (repeat nan (shape0 X))
              = repeat nan (shape0 X)).
  { unfold sigmoid_function. rewrite map_repeat. now rewrite sigmoid1_nan. }
  rewrite H.
  rewrite broadcast2_same_length by (now rewrite repeat_length).
  cbn [bind].
  set (d := map _ (combine _ y)).
  assert (D : d = repeat nan (shape0 X)).
  { unfold d.
    replace (shape0 X) with
      (length (map (fun p : float * Z => ssub (fst p) (of_int (snd p)))
                 (combine (repeat nan (shape0 X)) y)))
      at 2 by (rewrite length_map, length_combine, repeat_length; lia).
    apply all_nan_repeat. apply Forall_forall. intros v Hv.
    apply in_map_iff in Hv. destruct Hv as ((hi & yi) & <- & Hp).
    apply in_combine_l in Hp. apply repeat_spec in Hp. subst hi.
    simpl. apply sub_nan_l. }
  rewrite D.
  rewrite dot_ok_iff by (simpl; now rewrite repeat_length). cbn [bind].
  unfold transpose; cbn [rows].
  rewrite broadcast2_same_length
    by (rewrite !length_map, length_seq; congruence).
  f_equal.
  set (res := map _ (combine th _)).
  replace (shape1 X) with (length res)
    by (unfold res; rewrite length_map, length_combine, !length_map,
          length_seq; lia).
  apply all_nan_repeat. apply Forall_forall. intros v Hv. unfold res in Hv.
  apply in_map_iff in Hv. destruct Hv as ((t & u) & <- & Hp).
  apply in_combine_r in Hp. rewrite !map_map in Hp.
  apply in_map_iff in Hp. destruct Hp as (j & <- & Hj).
  cbn [fst snd].
  assert (G : inner (map (fun r => nth j r zero) (rows X))
                (repeat nan (shape0 X)) = nan).
  { apply inner_nan.
    - now rewrite length_map, repeat_length.
    - destruct (shape0 X); [lia|]. now left. }
  rewrite G. simpl. now rewrite div_nan_l, mul_nan_r, sub_nan_r.
Qed.

Lemma updates_nan (k : nat) : forall th : list float,
  rectangular X -> 1 <= shape0 X -> length y = shape0 X ->
  length th = shape1 X -> In nan th ->
  updates alpha X y (S k) th = Ok (repeat nan (shape1 X)).
Proof.
  induction k as [|k IH]; intros th Rx Hn Ly Lt Hnan.
  - simpl. now rewrite update_nan.
  - change (updates alpha X y (S (S k)) th)
      with (th' <- update alpha X y th ;; updates alpha X y (S k) th').
    rewrite update_nan by assumption. cbn [bind].
    apply IH; trivial.
    + apply repeat_length.
    + destruct (shape1 X) eqn:E.
      * destruct th; [destruct Hnan|discriminate Lt].
      * now left.
Qed.
End NaN.

(** NaN is absorbing.  In binary64 with an exp that maps NaN to NaN (as
    Annex F has it), on a rectangular matrix of at least one row with as
    many labels: once one weight is NaN, after one update, and after any
    number of further updates, every weight is NaN. *)
Theorem nan_weights_stay (fexp flog : float -> float) (alpha : float)
    (X : ndarray2 float) (y : list Z) (th : list float) (k : nat) :
  fexp nan = nan ->
  rectangular X -> 1 <= shape0 X -> length y = shape0 X ->
  length th = shape1 X -> In nan th ->
  updates (ops := binary64 fexp flog) alpha X y (S k) th
  = Ok (repeat nan (shape1 X)).
Proof. intros. now apply updates_nan. Qed.

Lemma nan_weights_stay_witness :
  updates (ops := binary64 exp_special log_special) alpha_main X_huge y_ones 3
    [nan]
  = Ok [nan].
Proof.
  apply (@nan_weights_stay exp_special log_special alpha_main X_huge y_ones
           [nan] 2).
  - reflexivity.
  - repeat constructor.
  - unfold shape0; simpl; lia.
  - reflexivity.
  - reflexivity.
  - now left.
Defined.

(** * The benchmark script: text *)

Section BenchText.
Import Bench.
Open Scope string_scope.

Lemma split_space_nonempty (s : string) : split_space s <> [].
Proof.
  induction s as [|c s IH]; simpl; [discriminate|].
  destruct (Ascii.eqb c " "); [discriminate|].
  destruct (split_space s); discriminate.
Qed.

(** Splitting at a single space between two texts splits each. *)
Lemma split_space_app (a b : string) :
  split_space (a ++ " " ++ b) = (split_space a ++ split_space b)%list.
Proof.
  induction a as [|c a IH]; [reflexivity|].
  simpl. destruct (Ascii.eqb c " ").
  - simpl in IH. now rewrite IH.
  - simpl in IH. rewrite IH.
    pose proof (split_space_nonempty a) as N.
    destruct (split_space a); [contradiction|reflexivity].
Qed.

Lemma split_spaceless (s : string) : spaceless s = true -> split_space s = [s].
Proof.
  induction s as [|c s IH]; [reflexivity|].
  simpl. intros H. apply andb_true_iff in H. destruct H as [C S].
  apply negb_true_iff in C. rewrite C, (IH S). reflexivity.
Qed.

Lemma spaceless_uint (d : Decimal.uint) :
  spaceless (DecimalString.NilEmpty.string_of_uint d) = true.
Proof. induction d; simpl; trivial. Qed.

Lemma spaceless_str_int (z : Z) : spaceless (str_int z) = true.
Proof.
  unfold str_int. destruct (Z.to_int z); simpl; apply spaceless_uint.
Qed.

Lemma str_nat_injective (i j : nat) : str_nat i = str_nat j -> i = j.
Proof.
  unfold str_nat. intros H.
  assert (E : Some (Nat.to_uint i) = Some (Nat.to_uint j))
    by (rewrite <- !DecimalString.NilEmpty.usu; now rewrite H).
  injection E as E.
  rewrite <- (DecimalNat.Unsigned.of_to i), <- (DecimalNat.Unsigned.of_to j).
  now rewrite E.
Qed.

Lemma NoDup_map_injective A B (f : A -> B) (l : list A) :
  (forall x y, f x = f y -> x = y) -> NoDup l -> NoDup (map f l).
Proof.
  intros I. induction 1 as [|x l Hx _ IH]; simpl; constructor; [|exact IH].
  intros H. apply in_map_iff in H. destruct H as (x' & E & Hin).
  apply I in E. now subst.
Qed.
End BenchText.

(** The arguments the benchmarked program is started with.  The command
    text of [run_case], split at spaces as [read_output_from_command] does,
    is: "dotnet", "run", the two file names, the pieces of [task_type], then
    "RandomForest" and the two numbers in decimal.  A [task_type] without a
    space gives exactly 8 arguments; each space in it gives one more. *)
Theorem command_argv (task_type : string) (n_trees n_leaves : Z) :
  Bench.split_space (Bench.command task_type n_trees n_leaves)
  = (["dotnet"; "run"; "synth_data_train.csv"; "synth_data_test.csv"]
     ++ Bench.split_space task_type
     ++ ["RandomForest"; Bench.str_int n_trees; Bench.str_int n_leaves])%list
       %string /\
  (Bench.spaceless task_type = true ->
   Bench.split_space (Bench.command task_type n_trees n_leaves)
   = ["dotnet"; "run"; "synth_data_train.csv"; "synth_data_test.csv";
      task_type; "RandomForest"; Bench.str_int n_trees;
      Bench.str_int n_leaves]%string).
Proof.
  assert (E : Bench.split_space (Bench.command task_type n_trees n_leaves)
    = (["dotnet"; "run"; "synth_data_train.csv"; "synth_data_test.csv"]
       ++ Bench.split_space task_type
       ++ ["RandomForest"; Bench.str_int n_trees; Bench.str_int n_leaves])
        %list%string).
  { change (Bench.command task_type n_trees n_leaves)
      with ("dotnet" ++ " " ++ "run" ++ " " ++ "synth_data_train.csv" ++ " "
            ++ "synth_data_test.csv" ++ " " ++ task_type ++ " "
            ++ "RandomForest" ++ " " ++ Bench.str_int n_trees ++ " "
            ++ Bench.str_int n_leaves)%string.
    rewrite !split_space_app.
    rewrite (split_spaceless _ (spaceless_str_int n_trees)).
    rewrite (split_spaceless _ (spaceless_str_int n_leaves)).
    reflexivity. }
  split; [exact E|].
  intros S. rewrite E, (split_spaceless _ S). reflexivity.
Qed.

Lemma command_argv_witness :
  Bench.split_space (Bench.command "binary" 100 128)
  = ["dotnet"; "run"; "synth_data_train.csv"; "synth_data_test.csv";
     "binary"; "RandomForest"; "100"; "128"]%string.
Proof.
  rewrite (proj2 (command_argv "binary" 100 128)); reflexivity.
Defined.

(** The header [convert_to_csv] gives a table of [ncols] columns: "f0",
    "f1", ... for all columns but the last, then "target".  The names are
    pairwise different and, for [ncols >= 1], as many as the columns; for
    no column at all there is still the one name "target". *)
Theorem column_names_spec (ncols : nat) :
  length (Bench.column_names ncols) = Nat.max ncols 1 /\
  NoDup (Bench.column_names ncols) /\
  last (Bench.column_names ncols) EmptyString = "target"%string /\
  forall i : nat, i < ncols - 1 ->
    nth i (Bench.column_names ncols) EmptyString
    = String "f" (Bench.str_nat i).
Proof.
  unfold Bench.column_names.
  split; [rewrite length_app, length_map, length_seq; simpl; lia|].
  split.
  - apply NoDup_app.
    + apply NoDup_map_injective; [|apply seq_NoDup].
      intros i j H. injection H as H. now apply str_nat_injective.
    + repeat constructor. intros [].
    + intros x Hx [<-|[]]. apply in_map_iff in Hx.
      destruct Hx as (i & H & _). discriminate H.
  - split; [apply last_last|].
    intros i Hi. rewrite app_nth1 by (now rewrite length_map, length_seq).
    rewrite nth_indep with (d' := String "f" (Bench.str_nat 0))
      by (now rewrite length_map, length_seq).
    rewrite (map_nth (fun i => String "f" (Bench.str_nat i))).
    now rewrite seq_nth.
Qed.

(** * The benchmark script: what run_case does *)

Section BenchRuns.
Import Bench.
Context {ext : Externals}.
Open Scope string_scope.

Lemma update_nth_last (f : dict -> dict) (l : list dict) (d : dict) :
  update_nth (length l) f (l ++ [d]) = (l ++ [f d])%list.
Proof. induction l as [|a l IH]; simpl; [reflexivity|]. now rewrite IH. Qed.

Lemma firstn_prefix A (l made : list A) :
  firstn (length l) (l ++ made) = l.
Proof.
  rewrite firstn_app, Nat.sub_diag, firstn_all. simpl. apply app_nil_r.
Qed.

Ltac nothing_made :=
  intros s; split; [exists []; cbn; now rewrite app_nil_r|reflexivity].

Lemma quiet_ret A (a : A) : quiet (ret a).
Proof. nothing_made. Qed.

Lemma quiet_raise A (e : exn library_error) : quiet (raise (A := A) e).
Proof. nothing_made. Qed.

Lemma quiet_call A (r : outcome library_error A) : quiet (call r).
Proof. nothing_made. Qed.

Lemma quiet_bind A B (m : M A) (k : A -> M B) :
  quiet m -> (forall a, quiet (k a)) -> quiet (bind m k).
Proof.
  intros Hm Hk s. unfold bind. specialize (Hm s).
  destruct (m s) as [[a|e] s1]; cbn [fst snd] in *.
  - destruct (Hk a s1) as [[h2 H1] H2]. destruct Hm as [[h1 H3] H4].
    split; [|congruence].
    exists (h1 ++ h2)%list. now rewrite H1, H3, app_assoc.
  - exact Hm.
Qed.

Lemma quiet_printed (l : list string) : quiet (emit (Printed l)).
Proof. nothing_made. Qed.

Lemma quiet_dict_read (d : nat) : quiet (dict_read d).
Proof. nothing_made. Qed.

(** A new dict goes after the ones that are there. *)
Lemma quiet_dict_new (items : list (string * cell)) : quiet (dict_new items).
Proof. intros s. split; [now exists [dict_of items]|reflexivity]. Qed.

Lemma quiet_write_csv (df : frame) (filename : string) :
  quiet (write_csv df filename).
Proof.
  intros s. unfold write_csv. destruct (to_csv df filename (world s)).
  split; [exists []; cbn; now rewrite app_nil_r|reflexivity].
Qed.

Lemma quiet_convert_to_csv (data : array) (filename label : string) :
  quiet (convert_to_csv data filename label).
Proof.
  unfold convert_to_csv.
  repeat (apply quiet_bind; [apply quiet_call|intros ?]).
  apply quiet_write_csv.
Qed.

Ltac quiet_steps :=
  repeat first
    [ apply quiet_ret | apply quiet_raise | apply quiet_call
    | apply quiet_printed | apply quiet_dict_read | apply quiet_dict_new
    | apply quiet_convert_to_csv
    | apply quiet_bind; [|intros ?]
    | match goal with
      | |- quiet (if ?b then _ else _) => destruct b
      | |- quiet (match ?x with _ => _ end) => destruct x
      end ].

Lemma quiet_prepare (n_samples n_features n_trees n_leaves : Z)
    (task_type : string) :
  quiet (prepare n_samples n_features n_trees n_leaves task_type).
Proof. unfold prepare. quiet_steps. Qed.

Lemma quiet_remove_each (xs : list string) : forall l, quiet (remove_each xs l).
Proof.
  induction xs as [|x xs IH]; intros l; simpl; [apply quiet_ret|].
  destruct (list_remove x l); [apply IH|apply quiet_raise].
Qed.

Lemma quiet_aggregate (case_dict_ref : nat) (result : option frame) :
  quiet (aggregate case_dict_ref result).
Proof.
  unfold aggregate. destruct result; [|apply quiet_raise].
  apply quiet_bind; [apply quiet_dict_read|intros ?].
  apply quiet_bind; [apply quiet_remove_each|intros ?]. apply quiet_call.
Qed.

End BenchRuns.

Section BenchLoop.
Import Bench.
Context {ext : Externals}.
Open Scope string_scope.

Variable case_dict_ref : nat.
Variable cmd : string.
Variable template_ref : nat.

Ltac quiet_steps :=
  repeat first
    [ apply quiet_ret | apply quiet_raise | apply quiet_call
    | apply quiet_printed | apply quiet_dict_read | apply quiet_dict_new
    | apply quiet_bind; [|intros ?]
    | match goal with
      | |- quiet (match ?x with _ => _ end) => destruct x
      end ].

(** One pass of the loop makes a copy of [os.environ], runs the program
    once with the copy as it is and, unless something raised in between,
    once more with MLNET_BACKEND=ONEDAL set in the copy; no dict that
    existed before is touched. *)
Lemma one_run_spec (result : option frame) (s : state) :
  exists j : nat,
    1 <= j <= 2 /\
    spawned (snd (one_run case_dict_ref cmd template_ref result s))
    = (spawned s
       ++ firstn j (pair_of_runs cmd (nth environ_ref (heap s) empty_dict)))%list /\
    (exists made, heap (snd (one_run case_dict_ref cmd template_ref result s))
                  = (heap s ++ made)%list) /\
    (forall r, fst (one_run case_dict_ref cmd template_ref result s)
               = Return r -> j = 2).
Proof.
  set (e0 := nth environ_ref (heap s) empty_dict).
  set (e1 := setitem e0 "MLNET_BACKEND" (CStr "ONEDAL")).
  destruct (one_run case_dict_ref cmd template_ref result s) as [r s'] eqn:E.
  cbn [fst snd].
  (* the two ways the pass can end *)
  assert (One : forall w t,
            s' = {| heap := (heap s ++ [e0])%list; world := w; trace := t |} ->
            spawned s' = (spawned s ++ [(split_space cmd, e0)])%list ->
            (forall a, r <> Return a) ->
            exists j : nat,
              1 <= j <= 2 /\
              spawned s' = (spawned s ++ firstn j (pair_of_runs cmd e0))%list /\
              (exists made, heap s' = (heap s ++ made)%list) /\
              (forall a, r = Return a -> j = 2)).
  { intros w t -> H N. exists 1. split; [lia|]. split; [exact H|].
    split; [now exists [e0]|]. intros a Ha. now destruct (N a). }
  assert (Two : forall made,
            heap s' = ((heap s ++ [e1]) ++ made)%list ->
            spawned s' = (spawned s ++ pair_of_runs cmd e0)%list ->
            exists j : nat,
              1 <= j <= 2 /\
              spawned s' = (spawned s ++ firstn j (pair_of_runs cmd e0))%list /\
              (exists made, heap s' = (heap s ++ made)%list) /\
              (forall a, r = Return a -> j = 2)).
  { intros made Hh H. exists 2. split; [lia|]. split; [exact H|].
    split; [|reflexivity].
    exists ([e1] ++ made)%list. now rewrite Hh, app_assoc. }
  unfold one_run, bind at 1, dict_copy in E.
  unfold read_output_from_command at 1, bind at 1, bind at 1, run_process
    in E.
  cbn [heap world trace] in E. rewrite nth_middle in E. fold e0 in E.
  destruct (subprocess_run (split_space cmd) e0 (world s)) as [[out|e] w].
  2:{ injection E as <- <-. eapply One; [reflexivity| |discriminate].
      unfold spawned. cbn. reflexivity. }
  unfold ret at 1 in E.
  unfold bind at 1, emit at 1 in E.
  unfold bind at 1, dict_read at 1 in E.
  unfold bind at 1, call at 1 in E.
  destruct (DataFrame_of_dict _) as [cf|e].
  2:{ injection E as <- <-. eapply One; [reflexivity| |discriminate].
      unfold spawned. cbn. reflexivity. }
  unfold bind at 1, call at 1 in E.
  destruct (read_csv _) as [parsed|e].
  2:{ injection E as <- <-. eapply One; [reflexivity| |discriminate].
      unfold spawned. cbn. reflexivity. }
  unfold bind at 1, call at 1 in E.
  destruct (merge cf parsed) as [dres|e].
  2:{ injection E as <- <-. eapply One; [reflexivity| |discriminate].
      unfold spawned. cbn. reflexivity. }
  unfold bind at 1, dict_setitem in E. cbn [heap world trace] in E.
  rewrite update_nth_last in E. fold e1 in E.
  unfold read_output_from_command at 1, bind at 1, bind at 1, run_process
    in E.
  cbn [heap world trace] in E. rewrite nth_middle in E.
  destruct (subprocess_run (split_space cmd) e1 w) as [[out'|e] w'].
  2:{ injection E as <- <-. apply (Two []); cbn [heap].
      - now rewrite app_nil_r.
      - unfold spawned, pair_of_runs. cbn. now rewrite <- !app_assoc. }
  unfold ret at 1 in E.
  (* the rest of the pass runs nothing *)
  match type of E with
  | ?m ?st = _ =>
      assert (Q : quiet m) by quiet_steps;
      destruct (Q st) as [[made H] Sp]; rewrite E in H, Sp;
      cbn [fst snd heap] in H, Sp
  end.
  apply (Two made); [exact H|].
  rewrite Sp. unfold spawned, pair_of_runs. cbn. now rewrite <- !app_assoc.
Qed.
End BenchLoop.

Section BenchCase.
Import Bench.
Context {ext : Externals}.
Open Scope string_scope.

Lemma runs_spec (case_dict_ref : nat) (cmd : string) (template_ref : nat)
    (n : nat) :
  forall (result : option frame) (s : state),
    1 <= length (heap s) ->
    exists k : nat,
      k <= 2 * n /\
      spawned (snd (runs n case_dict_ref cmd template_ref result s))
      = (spawned s
         ++ firstn k
              (concat (repeat
                 (pair_of_runs cmd (nth environ_ref (heap s) empty_dict))
                 n)))%list /\
      (exists made,
         heap (snd (runs n case_dict_ref cmd template_ref result s))
         = (heap s ++ made)%list) /\
      (forall r, fst (runs n case_dict_ref cmd template_ref result s)
                 = Return r -> k = 2 * n).
Proof.
  induction n as [|n IH]; intros result s Hs.
  - exists 0. cbn. rewrite app_nil_r. repeat split; try lia.
    exists []. now rewrite app_nil_r.
  - destruct (one_run_spec case_dict_ref cmd template_ref result s)
      as (j & Hj & Sp & (made & Hd) & Ret).
    cbn [runs]. unfold bind.
    destruct (one_run case_dict_ref cmd template_ref result s)
      as [[r'|e] s1]; cbn [fst snd] in *.
    + specialize (Ret r' eq_refl). subst j.
      assert (H1 : 1 <= length (heap s1))
        by (rewrite Hd, length_app; lia).
      destruct (IH r' s1 H1) as (k & Hk & Sp' & (made' & Hh) & Ret').
      assert (E0 : nth environ_ref (heap s1) empty_dict
                   = nth environ_ref (heap s) empty_dict)
        by (rewrite Hd; apply app_nth1; unfold environ_ref; lia).
      rewrite E0 in Sp'.
      exists (2 + k). split; [lia|]. split; [|split].
      * rewrite Sp', Sp. cbn [repeat concat firstn pair_of_runs].
        rewrite <- app_assoc. reflexivity.
      * exists (made ++ made')%list. now rewrite Hh, Hd, app_assoc.
      * intros r Hr. rewrite (Ret' r Hr). lia.
    + exists j. split; [lia|]. split; [|split].
      * rewrite Sp. f_equal. cbn [repeat concat].
        rewrite firstn_app.
        replace (j - length (pair_of_runs cmd
                               (nth environ_ref (heap s) empty_dict)))
          with 0 by (simpl; lia).
        simpl firstn at 2. now rewrite app_nil_r.
      * now exists made.
      * discriminate.
Qed.
End BenchCase.

(** [run_case] starts the program in strict alternation: each pass of its
    loop runs it with a copy of [os.environ], then with MLNET_BACKEND=ONEDAL
    set in that copy, with the same arguments every time.  A call that
    returns has made exactly [2 * n_runs] such calls; one that raises has
    made an initial part of them.  [os.environ] and every other dict that
    existed before are left as they were: the setting never reaches the
    next pass. *)
Theorem run_case_processes (ext : Bench.Externals)
    (n_samples n_features n_trees n_leaves n_runs : Z) (task_type : string)
    (s : Bench.state) :
  1 <= length (Bench.heap s) ->
  exists k : nat,
    k <= 2 * Z.to_nat n_runs /\
    Bench.spawned
      (snd (Bench.run_case n_samples n_features n_trees n_leaves n_runs
              task_type s))
    = Bench.spawned s
      ++ firstn k
           (concat (repeat
              [(Bench.split_space (Bench.command task_type n_trees n_leaves),
                nth Bench.environ_ref (Bench.heap s) Bench.empty_dict);
               (Bench.split_space (Bench.command task_type n_trees n_leaves),
                Bench.setitem
                  (nth Bench.environ_ref (Bench.heap s) Bench.empty_dict)
                  "MLNET_BACKEND" (Bench.CStr "ONEDAL"))]
              (Z.to_nat n_runs))) /\
    firstn (length (Bench.heap s))
      (Bench.heap
         (snd (Bench.run_case n_samples n_features n_trees n_leaves n_runs
                 task_type s)))
    = Bench.heap s /\
    (forall r,
       fst (Bench.run_case n_samples n_features n_trees n_leaves n_runs
              task_type s) = Bench.Return r ->
       k = 2 * Z.to_nat n_runs).
Proof.
  intros Hs.
  destruct (Bench.run_case n_samples n_features n_trees n_leaves n_runs
              task_type s) as [r s'] eqn:E.
  cbn [fst snd]. unfold Bench.run_case, Bench.bind at 1 in E.
  destruct (@quiet_prepare ext n_samples n_features n_trees n_leaves
              task_type s) as [[h1 Hh] Hsp].
  destruct (Bench.prepare n_samples n_features n_trees n_leaves task_type s)
    as [[refs|e] s1]; cbn [fst snd] in Hh, Hsp.
  2:{ injection E as <- <-. exists 0.
      rewrite Hh, Hsp, firstn_prefix, app_nil_r.
      repeat split; try lia. discriminate. }
  unfold Bench.bind at 1 in E.
  destruct (@runs_spec ext (fst refs)
              (Bench.command task_type n_trees n_leaves) (snd refs)
              (Z.to_nat n_runs) None s1)
    as (k & Hk & Sp & (h2 & Hp) & Ret);
    [rewrite Hh, length_app; lia|].
  assert (E0 : nth Bench.environ_ref (Bench.heap s1) Bench.empty_dict
               = nth Bench.environ_ref (Bench.heap s) Bench.empty_dict)
    by (rewrite Hh; apply app_nth1; unfold Bench.environ_ref; lia).
  rewrite E0, Hsp in Sp. rewrite Hh in Hp.
  destruct (Bench.runs _ _ _ _ _ s1) as [[res|e] s2]; cbn [fst snd] in *.
  - destruct (@quiet_aggregate ext (fst refs) res s2) as [[h3 Ha] Hb].
    rewrite E in Ha, Hb. cbn [fst snd] in Ha, Hb.
    exists k. rewrite Ha, Hb, Hp, <- !app_assoc, firstn_prefix.
    split; [exact Hk|]. split; [exact Sp|].
    split; [reflexivity|]. intros a _. now apply (Ret res).
  - injection E as <- <-.
    exists k. rewrite Hp, <- app_assoc, firstn_prefix.
    split; [exact Hk|]. split; [exact Sp|].
    split; [reflexivity|]. discriminate.
Qed.

Lemma run_case_processes_witness :
  length (Bench.spawned
            (snd (Bench.run_case (ext := calm) 5000 8 100 128 2 "binary"
                    fresh))) = 4.
Proof.
  destruct (@run_case_processes calm 5000 8 100 128 2 "binary" fresh)
    as (k & _ & Sp & _ & Ret).
  - simpl. lia.
  - rewrite Sp. rewrite (Ret tt ltac:(vm_compute; reflexivity)).
    reflexivity.
Defined.

(** With [n_runs <= 0] the loop body never runs and [result] stays None:
    [run_case] returns nothing and runs no program; once the data is
    generated and written, it raises AttributeError at [result.columns]. *)
Theorem run_case_no_runs (ext : Bench.Externals)
    (n_samples n_features n_trees n_leaves n_runs : Z) (task_type : string)
    (s : Bench.state) :
  (n_runs <= 0)%Z ->
  (forall r,
     fst (Bench.run_case n_samples n_features n_trees n_leaves n_runs
            task_type s) <> Bench.Return r) /\
  Bench.spawned
    (snd (Bench.run_case n_samples n_features n_trees n_leaves n_runs
            task_type s)) = Bench.spawned s /\
  (forall refs s1,
     Bench.prepare n_samples n_features n_trees n_leaves task_type s
     = (Bench.Return refs, s1) ->
     Bench.run_case n_samples n_features n_trees n_leaves n_runs task_type s
     = (Bench.Raise Bench.AttributeError, s1)).
Proof.
  intros Hn.
  assert (E : Bench.run_case n_samples n_features n_trees n_leaves n_runs
                task_type s
              = match Bench.prepare n_samples n_features n_trees n_leaves
                        task_type s with
                | (Bench.Return _, s1) => (Bench.Raise Bench.AttributeError, s1)
                | (Bench.Raise e, s1) => (Bench.Raise e, s1)
                end).
  { unfold Bench.run_case, Bench.bind.
    replace (Z.to_nat n_runs) with 0 by lia.
    destruct (Bench.prepare _ _ _ _ _ s) as [[m|e] s1]; reflexivity. }
  destruct (@quiet_prepare ext n_samples n_features n_trees n_leaves
              task_type s) as [_ Hsp].
  rewrite E.
  destruct (Bench.prepare _ _ _ _ _ s) as [[m|e] s1]; cbn [fst snd] in *.
  - split; [discriminate|]. split; [exact Hsp|].
    intros refs s2 [= _ <-]. reflexivity.
  - split; [discriminate|]. split; [exact Hsp|]. discriminate.
Qed.

Lemma run_case_no_runs_witness :
  fst (Bench.run_case (ext := calm) 5000 8 100 128 0 "binary" fresh)
  = Bench.Raise Bench.AttributeError.
Proof.
  destruct (@run_case_no_runs calm 5000 8 100 128 0 "binary" fresh)
    as (_ & _ & H).
  - lia.
  - erewrite H; [reflexivity|]. vm_compute. reflexivity.
Defined.

(** * Exchanging the two classes *)

Section Flip.
Open Scope R_scope.
Variable X : ndarray2 R.
Variable y : list Z.
Hypothesis rect : rectangular X.
Hypothesis labels : length y = shape0 X.

Lemma Sum_opp n (f : nat -> R) :
  @Spec.sum_upto R real_arith n (fun k => - f k)
  = - @Spec.sum_upto R real_arith n f.
Proof.
  rewrite <- (Rmult_1_l (@Spec.sum_upto R real_arith n f)),
    Ropp_mult_distr_l, <- Sum_scal.
  apply sum_upto_ext. intros k _. ring.
Qed.

Lemma nth_map_opp (w : list R) (j : nat) :
  nth j (map Ropp w) 0 = - nth j w 0.
Proof.
  rewrite <- Ropp_0 at 1. apply (map_nth Ropp).
Qed.

Lemma z_negated (w : list R) (i : nat) :
  Spec.z X (map Ropp w) i = - Spec.z X w i.
Proof.
  unfold Spec.z. rewrite <- Sum_opp. apply sum_upto_ext. intros j _.
  rewrite nth_map_opp. simpl. ring.
Qed.

Lemma h_negated (w : list R) (i : nat) :
  Spec.h X (map Ropp w) i = 1 - Spec.h X w i.
Proof.
  rewrite !spec_h_logistic, z_negated. unfold logistic.
  pose proof (exp_pos (Spec.z X w i)) as P.
  rewrite exp_Ropp. field. lra.
Qed.

Lemma nth_flip (i : nat) :
  (i < shape0 X)%nat ->
  IZR (nth i (flip_labels y) 0%Z) = 1 - IZR (nth i y 0%Z).
Proof.
  intros Hi. unfold flip_labels.
  rewrite nth_map_in with (d' := 0%Z) by congruence.
  now rewrite minus_IZR.
Qed.

Lemma new_weights_flipped (alpha : R) (w : list R) :
  Spec.new_weights alpha X (flip_labels y) (map Ropp w)
  = map Ropp (Spec.new_weights alpha X y w).
Proof.
  unfold Spec.new_weights. rewrite map_map. apply map_ext. intros j.
  rewrite nth_map_opp.
  assert (G : Spec.gradient X (flip_labels y) (map Ropp w) j
              = - Spec.gradient X y w j).
  { unfold Spec.gradient.
    change (@Spec.sum_upto R real_arith (Spec.n_samples X)
              (fun i => Spec.entry X i j
                        * (Spec.h X (map Ropp w) i
                           - IZR (nth i (flip_labels y) 0%Z)))
            / IZR (Z.of_nat (Spec.n_samples X))
            = - (@Spec.sum_upto R real_arith (Spec.n_samples X)
                   (fun i => Spec.entry X i j
                             * (Spec.h X w i - IZR (nth i y 0%Z)))
                 / IZR (Z.of_nat (Spec.n_samples X)))).
    unfold Rdiv. rewrite Ropp_mult_distr_l, <- Sum_opp. f_equal.
    apply sum_upto_ext. intros i Hi.
    rewrite h_negated, nth_flip by exact Hi. ring. }
  rewrite G. simpl. ring.
Qed.

Lemma cross_entropy_flipped (w : list R) :
  Spec.cross_entropy X (flip_labels y) (map Ropp w)
  = Spec.cross_entropy X y w.
Proof.
  unfold Spec.cross_entropy.
  change (@Spec.sum_upto R real_arith (Spec.n_samples X)
            (fun i => IZR (- nth i (flip_labels y) 0%Z)
                      * ln (Spec.h X (map Ropp w) i)
                      - IZR (1 - nth i (flip_labels y) 0%Z)
                        * ln (1 - Spec.h X (map Ropp w) i))
          / IZR (Z.of_nat (Spec.n_samples X))
          = @Spec.sum_upto R real_arith (Spec.n_samples X)
              (fun i => IZR (- nth i y 0%Z) * ln (Spec.h X w i)
                        - IZR (1 - nth i y 0%Z) * ln (1 - Spec.h X w i))
            / IZR (Z.of_nat (Spec.n_samples X))).
  f_equal. apply sum_upto_ext. intros i Hi.
  rewrite h_negated.
  replace (1 - (1 - Spec.h X w i)) with (Spec.h X w i) by ring.
  rewrite opp_IZR, minus_IZR, (nth_flip Hi), opp_IZR, minus_IZR.
  ring.
Qed.

Lemma flip_length : length (flip_labels y) = shape0 X.
Proof. unfold flip_labels. now rewrite length_map. Qed.

Lemma update_flipped (alpha : R) (w : list R) :
  update alpha X (flip_labels y) (map Ropp w)
  = result_map (map Ropp) (update alpha X y w).
Proof.
  destruct (Nat.eq_dec (length w) (shape1 X)) as [L|L].
  - rewrite !update_new_weights;
      trivial using flip_length; [|now rewrite length_map].
    simpl. now rewrite new_weights_flipped.
  - unfold update, dot. rewrite length_map.
    destruct (Nat.eqb_spec (shape1 X) (length w)); [congruence|reflexivity].
Qed.

Lemma loss_flipped (w : list R) :
  loss X (flip_labels y) (map Ropp w) = loss X y w.
Proof.
  destruct (Nat.eq_dec (length w) (shape1 X)) as [L|L].
  - rewrite !loss_sum; trivial using flip_length; [|now rewrite length_map].
    now rewrite cross_entropy_flipped.
  - unfold loss, dot. rewrite length_map.
    destruct (Nat.eqb_spec (shape1 X) (length w)); [congruence|reflexivity].
Qed.

Lemma body_flipped (alpha : R) (max_iterations : Z) (s : state) :
  body alpha X (flip_labels y) max_iterations (negate_weights s)
  = result_map negate_weights (body alpha X y max_iterations s).
Proof.
  unfold body. cbn [theta negate_weights]. rewrite update_flipped.
  destruct (update alpha X y (theta s)) as [th|]; [|reflexivity].
  cbn [result_map bind]. rewrite loss_flipped.
  destruct (loss X y th) as [e|]; [|reflexivity].
  cbn [bind]. unfold count, negate_weights. cbn.
  destruct (Z.eqb (iterations s + 1) max_iterations); reflexivity.
Qed.

Lemma while_flipped (alpha : R) (max_iterations : Z) (fuel : nat) :
  forall s : state,
    while alpha X (flip_labels y) max_iterations fuel (negate_weights s)
    = option_map (result_map negate_weights)
        (while alpha X y max_iterations fuel s).
Proof.
  induction fuel as [|fuel IH]; intros s; [reflexivity|].
  simpl. destruct (converged s); [reflexivity|].
  rewrite body_flipped.
  destruct (body alpha X y max_iterations s) as [s1|]; [|reflexivity].
  cbn [result_map bind]. apply IH.
Qed.
End Flip.

(** Exchanging the two classes negates the model.  In exact arithmetic, on
    a rectangular matrix with as many labels as rows, training on the labels
    [1 - y] returns the weights of training on [y] with the opposite sign,
    and prints the same losses; runs that raise or do not finish do so
    alike. *)
Theorem flipped_labels_negate (X : ndarray2 R) (y : list Z) (alpha : R)
    (max_iterations : Z) (fuel : nat) :
  rectangular X -> length y = shape0 X ->
  logistic_reg alpha X (flip_labels y) max_iterations fuel
  = option_map (result_map (map Ropp))
      (logistic_reg alpha X y max_iterations fuel) /\
  option_map (result_map (@stdout R))
    (run alpha X (flip_labels y) max_iterations fuel)
  = option_map (result_map (@stdout R)) (run alpha X y max_iterations fuel).
Proof.
  intros Rx Ly.
  assert (I : init X = negate_weights (init X)).
  { unfold init, negate_weights, zeros. cbn. f_equal.
    rewrite map_repeat. f_equal. unfold zero. simpl. ring. }
  assert (W : run alpha X (flip_labels y) max_iterations fuel
              = option_map (result_map negate_weights)
                  (run alpha X y max_iterations fuel)).
  { unfold run. rewrite I at 1. now apply while_flipped. }
  split.
  - unfold logistic_reg. rewrite W.
    destruct (run alpha X y max_iterations fuel) as [[s|]|]; reflexivity.
  - rewrite W.
    destruct (run alpha X y max_iterations fuel) as [[s|]|]; reflexivity.
Qed.

Lemma flipped_labels_negate_witness :
  logistic_reg 0.1%R X_and [1; 1; 1; 0]%Z 3 4
  = option_map (result_map (map Ropp)) (logistic_reg 0.1%R X_and y_and 3 4).
Proof.
  apply (@flipped_labels_negate X_and y_and 0.1%R 3 4).
  - repeat constructor.
  - reflexivity.
Defined.
